(** * Resilience: a shallow embedding of the execution decorator

    The development follows the TypeScript module that exports
    [withResilience], [sleep] and the private helpers [CircuitBreaker],
    [computeBackoffMs], [withTimeout] and [runWithActiveSignal].

    Conventions of the embedding:
    - JavaScript numbers that hold milliseconds, counters and timestamps are
      integers ([Z]); what the backoff computes is a [number], which can
      also be infinite or NaN; the draw of [Math.random] is a double in
      [0,1), given by its mantissa and scale ([Draw]), and its product with
      the delay is rounded as a double is.
    - Timers are those of Node.js: a delay above 2^31 - 1 ms is 1 ms, and a
      timer that is not cleared fires when it is due.
    - One call of the wrapped function runs sequentially (every step is
      awaited), so it is a state-passing function on a [World] that holds the
      wall clock, the module variable [activeSignal], the abort controllers,
      the closure's breaker and what the hooks were told.
    - A promise is described by how it settles and after how many
      milliseconds ([Behaviour]); an operation that never settles is
      [Hangs], and a call that awaits it is [Pending]. *)

From Stdlib Require Import ZArith List String Bool Lia.
Import ListNotations.
Local Open Scope Z_scope.

(** ** Values and errors *)

(** What a callable can return or throw ([unknown] in the source). An
    [Error] object is identified by its message. *)
Inductive value : Type :=
| VUndefined
| VNull
| VNum (z : Z)
| VStr (s : string)
| VError (msg : string).

(** [a ?? b] *)
Definition nullish (a b : value) : value :=
  match a with
  | VUndefined | VNull => b
  | _ => a
  end.

Definition TimeoutError : value := VError "TimeoutError".
Definition CircuitOpenError (name : string) : value :=
  VError ("CircuitOpenError: " ++ name).
(** The error of a cancelled [sleep]: [new Error("Aborted")]. *)
Definition CancelledError : value := VError "Aborted".
Definition UnknownError : value := VError "UnknownError".

(** ** Numbers

    The delays of the configuration are whole numbers of milliseconds that
    a double holds exactly. What the backoff computes from them is again a
    whole number, or one of the three values beyond. *)
Inductive number : Type :=
| Num (z : Z)
| NaN
| PosInfinity
| NegInfinity.

(** The doubles end below 2^1024. *)
Definition DOUBLE_LIMIT : Z := 2 ^ 1024.

(** [Math.pow(2, e)] for a whole exponent [e >= 0]. *)
Definition mathPow2 (e : Z) : number :=
  if e <=? 1023 then Num (2 ^ e) else PosInfinity.

(** [b * x], where [x] is a power of two or infinite. The product of a
    double and a power of two is exact, unless it leaves the range. *)
Definition times (b : Z) (x : number) : number :=
  match x with
  | Num p =>
      if DOUBLE_LIMIT <=? b * p then PosInfinity
      else if b * p <=? - DOUBLE_LIMIT then NegInfinity
      else Num (b * p)
  | PosInfinity =>
      if b =? 0 then NaN else if 0 <? b then PosInfinity else NegInfinity
  | NegInfinity =>
      if b =? 0 then NaN else if 0 <? b then NegInfinity else PosInfinity
  | NaN => NaN
  end.

(** [Math.min(x, m)] *)
Definition mathMin (x : number) (m : Z) : number :=
  match x with
  | Num a => Num (Z.min a m)
  | NaN => NaN
  | PosInfinity => Num m
  | NegInfinity => NegInfinity
  end.

(** What [Math.random()] returns: a double in [0, 1), that is
    [mantissa / 2^scale] with a mantissa below 2^53 and a scale from 53 to
    1074. *)
Record Draw : Type := {
  mantissa : Z;
  scale : Z
}.

Definition isDraw (r : Draw) : Prop :=
  0 <= mantissa r < 2 ^ 53 /\ 53 <= scale r <= 1074.

Definition zeroDraw : Draw := {| mantissa := 0; scale := 53 |}.

(** A whole number [n >= 0] rounded to the 53 bits of a double, to the
    nearest and to the even one of two nearest. *)
Definition roundToDouble (n : Z) : Z :=
  let bits := Z.log2 n + 1 in
  if bits <=? 53 then n
  else
    let s := bits - 53 in
    let q := n / 2 ^ s in
    let rest := n mod 2 ^ s in
    let half := 2 ^ (s - 1) in
    let up := (half <? rest) || ((rest =? half) && Z.odd q) in
    (if up then q + 1 else q) * 2 ^ s.

(** [Math.floor(r * c)] for a draw [r] and a whole [c]: the product is
    rounded to a double, then floored. *)
Definition floorTimes (r : Draw) (c : Z) : Z :=
  let rounded := roundToDouble (mantissa r * Z.abs c) in
  if 0 <=? c then rounded / 2 ^ scale r else (- rounded) / 2 ^ scale r.

(** [Math.floor(Math.random() * capped)] *)
Definition jittered (r : Draw) (capped : number) : number :=
  match capped with
  | Num c => Num (floorTimes r c)
  | NaN => NaN
  | PosInfinity => if mantissa r =? 0 then NaN else PosInfinity
  | NegInfinity => if mantissa r =? 0 then NaN else NegInfinity
  end.

(** [x > 0] *)
Definition isPositive (x : number) : bool :=
  match x with
  | Num z => 0 <? z
  | PosInfinity => true
  | _ => false
  end.

(** How an awaited operation ends. *)
Inductive Outcome : Type :=
| Resolved (v : value)
| Rejected (e : value)
| Pending.

(** ** Configuration (global.d.ts) *)

Inductive BackoffStrategy : Type :=
| Fixed (delayMs : Z)
| Exponential (baseDelayMs maxDelayMs : Z) (jitter : option bool).

Record CircuitBreakerConfig : Type := {
  failureThreshold : Z;
  resetTimeoutMs : Z
}.

Record ResilienceConfig : Type := {
  name : option string;
  timeoutMs : option Z;
  retries : option Z;
  backoff : option BackoffStrategy;
  retryOn : option (value -> bool);
  circuitBreaker : option CircuitBreakerConfig;
  useAbortSignal : option bool
}.

(** The empty configuration [{}]. *)
Definition emptyConfig : ResilienceConfig :=
  {| name := None; timeoutMs := None; retries := None; backoff := None;
     retryOn := None; circuitBreaker := None; useAbortSignal := None |}.

(** Truthiness of an optional boolean field. *)
Definition truthy (b : option bool) : bool :=
  match b with Some true => true | _ => false end.

(** ** Hooks

    Every hook is optional in the source and its result is ignored; the
    embedding records the call that a subscriber to all hooks would see.
    Hooks and the retry predicate are taken to return normally. *)
Inductive Event : Type :=
| onAttempt (name : string) (attempt : Z)
| onSuccess (name : string) (attempt timeMs : Z)
| onFailure (name : string) (attempt timeMs : Z) (error : value)
| onRetry (name : string) (attempt : Z) (delayMs : number) (error : value)
| onCircuitOpen (name : string)
| onCircuitHalfOpen (name : string)
| onCircuitClosed (name : string).

(** ** Circuit breaker *)

Inductive CircuitState : Type := CLOSED | OPEN | HALF_OPEN.

Definition CircuitState_eqb (a b : CircuitState) : bool :=
  match a, b with
  | CLOSED, CLOSED | OPEN, OPEN | HALF_OPEN, HALF_OPEN => true
  | _, _ => false
  end.

Module CircuitBreaker.

(** The mutable fields of the class; [cfg] and [name] are fixed by the
    constructor. *)
Record t : Type := {
  state : CircuitState;
  failures : Z;
  openedAt : Z
}.

Definition new : t := {| state := CLOSED; failures := 0; openedAt := 0 |}.

Section Methods.
Variable cfg : CircuitBreakerConfig.
Variable name : string.

(** Each method takes the reading of [Date.now()] and returns the new
    fields with the hooks it fired, oldest first. *)
Definition canAttempt (b : t) (now : Z) : bool * t * list Event :=
  match state b with
  | CLOSED => (true, b, [])
  | st =>
      if CircuitState_eqb st OPEN && (resetTimeoutMs cfg <=? now - openedAt b)
      then (true,
            {| state := HALF_OPEN; failures := failures b;
               openedAt := openedAt b |},
            [onCircuitHalfOpen name])
      else (CircuitState_eqb st HALF_OPEN, b, [])
  end.

Definition onSuccess (b : t) : t * list Event :=
  let ev := match state b with
            | CLOSED => []
            | _ => [onCircuitClosed name]
            end in
  ({| state := CLOSED; failures := 0; openedAt := openedAt b |}, ev).

Definition onFailure (b : t) (now : Z) : t * list Event :=
  let f := failures b + 1 in
  if failureThreshold cfg <=? f
  then ({| state := OPEN; failures := f; openedAt := now |},
        [onCircuitOpen name])
  else ({| state := state b; failures := f; openedAt := openedAt b |}, []).

(** The breaker states that the three methods can produce from a new
    breaker, whatever the clock shows at each call. *)
Inductive reachable : t -> Prop :=
| reach_new : reachable new
| reach_canAttempt b now :
    reachable b -> reachable (snd (fst (canAttempt b now)))
| reach_onSuccess b :
    reachable b -> reachable (fst (onSuccess b))
| reach_onFailure b now :
    reachable b -> reachable (fst (onFailure b now)).

(** A breaker that is not closed has counted at least
    [failureThreshold] failures. *)
Definition tripped (b : t) : Prop :=
  state b <> CLOSED -> failureThreshold cfg <= failures b.

End Methods.
End CircuitBreaker.

(** ** Backoff *)

(** 2^e in exact arithmetic. *)
Definition pow2 (e : Z) : Z := 2 ^ e.

(** [computeBackoffMs], for a whole attempt index; [rnd] is the value that
    [Math.random()] returns if it is called. *)
Definition computeBackoffMs (strategy : option BackoffStrategy)
    (attempt : Z) (rnd : Draw) : number :=
  match strategy with
  | None => Num 0
  | Some (Fixed delayMs) => Num delayMs
  | Some (Exponential baseDelayMs maxDelayMs jitter) =>
      let raw := times baseDelayMs (mathPow2 (Z.max 0 (attempt - 1))) in
      let capped := mathMin raw maxDelayMs in
      if negb (truthy jitter) then capped
      else jittered rnd capped
  end.

(** ** The world of one wrapped function *)

(** An [AbortController] and its signal are named by the order of creation. *)
Definition Signal : Type := nat.

Record World : Type := {
  now : Z;                          (* Date.now() *)
  activeSignal : option Signal;     (* the module variable *)
  controllers : nat;                (* AbortControllers created so far *)
  aborted : list Signal;            (* the ones whose abort() was called *)
  timers : list (Z * Signal);       (* timers still to fire: due time, and
                                       the controller they will abort *)
  calls : nat;                      (* invocations of the underlying callable *)
  trace : list Event;               (* hooks fired, oldest first *)
  breaker : option CircuitBreaker.t (* the closure's breaker *)
}.

Definition set_activeSignal (s : option Signal) (w : World) : World :=
  {| now := now w; activeSignal := s; controllers := controllers w;
     aborted := aborted w; timers := timers w; calls := calls w;
     trace := trace w; breaker := breaker w |}.

Definition set_breaker (b : option CircuitBreaker.t) (w : World) : World :=
  {| now := now w; activeSignal := activeSignal w;
     controllers := controllers w; aborted := aborted w;
     timers := timers w; calls := calls w; trace := trace w; breaker := b |}.

(** The timers that are due by time [t], and the others. *)
Definition dueBy (t : Z) (l : list (Z * Signal)) : list (Z * Signal) :=
  filter (fun x => fst x <=? t) l.

Definition notDueBy (t : Z) (l : list (Z * Signal)) : list (Z * Signal) :=
  filter (fun x => negb (fst x <=? t)) l.

(** Time passes while an awaited operation runs. The timers that come due
    meanwhile fire before the awaited operation continues, as they were set
    earlier: each aborts its controller. Awaiting what is settled already
    ([ms = 0]) takes no turn of the event loop and fires no timer. *)
Definition advance (ms : Z) (w : World) : World :=
  {| now := now w + ms; activeSignal := activeSignal w;
     controllers := controllers w;
     aborted := (if 0 <? ms then map snd (dueBy (now w + ms) (timers w))
                 else []) ++ aborted w;
     timers := if 0 <? ms then notDueBy (now w + ms) (timers w) else timers w;
     calls := calls w; trace := trace w; breaker := breaker w |}.

(** [setTimeout(f, ms)]: the delay after which [f] runs. A delay above
    2^31 - 1 is replaced by 1 ms and a negative delay is no delay (the
    timers of Node.js; a delay of 0, which Node.js raises to 1 ms, is kept
    as it is). *)
Definition TIMEOUT_MAX : Z := 2147483647.

Definition setTimeoutDelay (ms : Z) : Z :=
  if ms <=? TIMEOUT_MAX then Z.max 0 ms else 1.

(** A timer set to abort [controller] at time [due]; without a controller
    the callback's [controller?.abort()] does nothing. *)
Definition armTimer (due : Z) (controller : option Signal) (w : World)
  : World :=
  match controller with
  | None => w
  | Some s =>
      {| now := now w; activeSignal := activeSignal w;
         controllers := controllers w; aborted := aborted w;
         timers := (due, s) :: timers w; calls := calls w; trace := trace w;
         breaker := breaker w |}
  end.

Definition fire (evs : list Event) (w : World) : World :=
  {| now := now w; activeSignal := activeSignal w;
     controllers := controllers w; aborted := aborted w; timers := timers w;
     calls := calls w; trace := trace w ++ evs; breaker := breaker w |}.

(** [new AbortController()] *)
Definition newController (w : World) : Signal * World :=
  (controllers w,
   {| now := now w; activeSignal := activeSignal w;
      controllers := S (controllers w); aborted := aborted w;
      timers := timers w; calls := calls w; trace := trace w;
      breaker := breaker w |}).

(** [controller?.abort()] *)
Definition abort (c : option Signal) (w : World) : World :=
  match c with
  | None => w
  | Some s =>
      {| now := now w; activeSignal := activeSignal w;
         controllers := controllers w; aborted := s :: aborted w;
         timers := timers w; calls := calls w; trace := trace w;
         breaker := breaker w |}
  end.

Definition isAborted (s : Signal) (w : World) : bool :=
  existsb (Nat.eqb s) (aborted w).

Definition countCall (w : World) : World :=
  {| now := now w; activeSignal := activeSignal w;
     controllers := controllers w; aborted := aborted w; timers := timers w;
     calls := S (calls w); trace := trace w; breaker := breaker w |}.

(** ** The underlying callable *)

(** The promise that [Promise.resolve(fn(...args))] gives: fulfilled with
    [v] or rejected with [e] after [d] milliseconds ([d = 0] for a
    synchronous return or throw), or never settled. *)
Inductive Behaviour : Type :=
| Returns (v : value) (d : Z)
| Throws (e : value) (d : Z)
| Hangs.

(** What the wrapper does not control: the callable, which may act
    differently at each invocation and may read the ambient signal through
    [sleep] or [resilientFetch], and the random generator ([random i] is
    the draw made while attempt [i] computes its backoff).

    [fn i s] is how the promise of invocation [i] settles if the signal [s]
    it was given is not aborted before. [onAbort i s] is what the promise
    does inside an [abort] listener on that signal: [Some e] when the
    listener rejects it with [e] on the spot, as the listener of [sleep]
    does, [None] when the promise is not settled within the listener (it
    ignores the signal, or reacts only in a later microtask). *)
Record Env : Type := {
  fn_name : string;
  fn : nat -> option Signal -> Behaviour;
  onAbort : nat -> option Signal -> option value;
  random : Z -> Draw
}.

(** Awaiting the promise alone. *)
Definition await (p : Behaviour) (w : World) : Outcome * World :=
  match p with
  | Returns v d => (Resolved v, advance d w)
  | Throws e d => (Rejected e, advance d w)
  | Hangs => (Pending, w)
  end.

(** When the promise settles, if it does. *)
Definition settlesAfter (p : Behaviour) : option Z :=
  match p with
  | Returns _ d | Throws _ d => Some d
  | Hangs => None
  end.

(** ** Timeout *)

(** [!timeoutMs] *)
Definition noTimeout (timeoutMs : option Z) : bool :=
  match timeoutMs with
  | None => true
  | Some t => t =? 0
  end.

(** The timer's callback, [t] ms after the race began and before the
    promise has settled: [controller?.abort()], then
    [reject(new Error("TimeoutError"))]. The abort runs the listeners of the
    signal first; a promise that its listener rejects is settled before the
    timer's promise is, and its rejection is the one that the race takes. *)
Definition timerFires (t : Z) (controller : option Signal)
    (reaction : option value) (w : World) : Outcome * World :=
  (match controller, reaction with
   | Some _, Some e => Rejected e
   | _, _ => Rejected TimeoutError
   end,
   abort controller (advance t w)).

(** [withTimeout(p, timeoutMs, controller)]; the promise [p] is given by
    how it settles when left alone and by its [reaction] to the abort of
    the controller's signal (see [Env]). The timer, when there is one,
    fires [setTimeoutDelay timeoutMs] after the call; a promise that
    settles at the very same millisecond is taken to win the race, what
    settles it having been set up before the timer was. The source does
    not clear the timer of a race that the promise won: it stays set and
    aborts the controller when it comes due. *)
Definition withTimeout (p : Behaviour) (reaction : option value)
    (timeoutMs : option Z) (controller : option Signal) (w : World)
  : Outcome * World :=
  if noTimeout timeoutMs then await p w
  else
    let t := setTimeoutDelay (match timeoutMs with Some t => t | None => 0 end) in
    match settlesAfter p with
    | Some d =>
        if d <=? t
        then (fst (await p w), armTimer (now w + t) controller (snd (await p w)))
        else timerFires t controller reaction w
    | None => timerFires t controller reaction w
    end.

(** The outcome of the race alone. *)
Definition raced (timeoutMs : option Z) (controller : option Signal)
    (p : Behaviour) (reaction : option value) : Outcome :=
  fst (withTimeout p reaction timeoutMs controller
         {| now := 0; activeSignal := None; controllers := 0; aborted := [];
            timers := []; calls := 0; trace := []; breaker := None |}).

(** The number of attempts that the hooks were told of. *)
Definition attemptsFired (t : list Event) : nat :=
  List.length
    (filter (fun ev => match ev with onAttempt _ _ => true | _ => false end) t).

(** [delay(ms)], awaited: the timer of a delay beyond all bounds is due
    after 1 ms, as that of a delay above 2^31 - 1. *)
Definition delay (ms : number) (w : World) : World :=
  match ms with
  | Num z => advance (setTimeoutDelay z) w
  | _ => advance 1 w
  end.

(** ** Ambient signal *)

(** [runWithActiveSignal(signal, fn)]: the [finally] block runs when the
    awaited body settles, and never if it does not. *)
Definition runWithActiveSignal (signal : option Signal)
    (body : World -> Outcome * World) (w : World) : Outcome * World :=
  let prev := activeSignal w in
  let (o, w') := body (set_activeSignal signal w) in
  match o with
  | Pending => (Pending, w')
  | _ => (o, set_activeSignal prev w')
  end.

(** *** Runs in flight together

    [runWithActiveSignal] is an async function: between the assignment
    before its [await] and the one in its [finally], other runs may do
    theirs. Each run is a frame with a [prev] of its own, and a schedule
    is the order in which the runs reach these two points. *)
Inductive SlotStep : Type :=
| Enter (frame : nat) (signal : option Signal)
| Leave (frame : nat).

Record Slot : Type := {
  current : option Signal;               (* the module variable *)
  prev : list (nat * option Signal)      (* [prev] of the frames in flight *)
}.

Definition savedBy (frame : nat) (s : Slot) : option (option Signal) :=
  option_map snd (find (fun x => Nat.eqb (fst x) frame) (prev s)).

Definition slotStep (s : Slot) (step : SlotStep) : Slot :=
  match step with
  | Enter frame signal =>
      {| current := signal; prev := (frame, current s) :: prev s |}
  | Leave frame =>
      match savedBy frame s with
      | Some p =>
          {| current := p;
             prev := filter (fun x => negb (Nat.eqb (fst x) frame)) (prev s) |}
      | None => s
      end
  end.

Definition schedule (steps : list SlotStep) (s : Slot) : Slot :=
  fold_left slotStep steps s.

(** ** The wrapped function *)

Section Wrapped.
Variable config : ResilienceConfig.
Variable env : Env.

(** The constants that [withResilience] computes once, at wrap time.
    A function's [name] property is always a string, so the last
    alternative ["anonymous"] of the source is never taken. *)
Definition wname : string :=
  match name config with Some n => n | None => fn_name env end.
Definition wretries : Z :=
  match retries config with Some n => n | None => 0 end.
Definition wretryOn : value -> bool :=
  match retryOn config with Some p => p | None => fun _ => true end.

(** [new CircuitBreaker(...)] when the configuration has one. *)
Definition withResilience (w : World) : World :=
  set_breaker
    (match circuitBreaker config with
     | Some _ => Some CircuitBreaker.new
     | None => None
     end) w.

(** The breaker exists only together with its configuration. *)
Definition breakerOf (w : World)
  : option (CircuitBreakerConfig * CircuitBreaker.t) :=
  match circuitBreaker config, breaker w with
  | Some c, Some b => Some (c, b)
  | _, _ => None
  end.

(** [breaker && !breaker.canAttempt()]: [true] when the attempt is
    refused. *)
Definition refused (w : World) : bool * World :=
  match breakerOf w with
  | None => (false, w)
  | Some (c, b) =>
      let '(ok, b', evs) := CircuitBreaker.canAttempt c wname b (now w) in
      (negb ok, fire evs (set_breaker (Some b') w))
  end.

(** [breaker?.onSuccess()] and [breaker?.onFailure()] *)
Definition breakerSuccess (w : World) : World :=
  match breakerOf w with
  | None => w
  | Some (c, b) =>
      let (b', evs) := CircuitBreaker.onSuccess wname b in
      fire evs (set_breaker (Some b') w)
  end.

Definition breakerFailure (w : World) : World :=
  match breakerOf w with
  | None => w
  | Some (c, b) =>
      let (b', evs) := CircuitBreaker.onFailure c wname b (now w) in
      fire evs (set_breaker (Some b') w)
  end.

(** The signal of an attempt that starts when [c] controllers exist:
    that of a controller created for it, or none. *)
Definition signalFor (c : nat) : option Signal :=
  if truthy (useAbortSignal config) then Some c else None.

Definition attemptSignal (w : World) : option Signal :=
  signalFor (controllers w).

(** How many controllers one attempt creates. *)
Definition ctlStep : nat :=
  if truthy (useAbortSignal config) then 1%nat else 0%nat.

(** The function handed to [runWithActiveSignal]: call the callable,
    which sees the ambient signal, and race it against the timer. *)
Definition invoke (controller : option Signal) (w : World)
  : Outcome * World :=
  let p := fn env (calls w) (activeSignal w) in
  let reaction := onAbort env (calls w) (activeSignal w) in
  withTimeout p reaction (timeoutMs config) controller (countCall w).

(** The [try] block up to its [await]. *)
Definition attemptWork (w : World) : Outcome * World :=
  if truthy (useAbortSignal config) then
    let (c, w1) := newController w in
    runWithActiveSignal (Some c) (invoke (Some c)) w1
  else
    runWithActiveSignal None (invoke None) w.

(** The [for] loop of the returned function, with [remaining]
    iterations left before [attempt] exceeds [retries + 1]. *)
Fixpoint attempts (remaining : nat) (attempt : Z) (lastErr : value)
    (w : World) : Outcome * World :=
  match remaining with
  | O => (Rejected (nullish lastErr UnknownError), w)
  | S remaining' =>
      let w := fire [onAttempt wname attempt] w in
      let (no, w) := refused w in
      if no then (Rejected (CircuitOpenError wname), w)
      else
        let start := now w in
        let (o, w) := attemptWork w in
        match o with
        | Pending => (Pending, w)
        | Resolved result =>
            let timeMs := now w - start in
            let w := breakerSuccess w in
            let w := fire [onSuccess wname attempt timeMs] w in
            (Resolved result, w)
        | Rejected err =>
            let timeMs := now w - start in
            let w := breakerFailure w in
            let w := fire [onFailure wname attempt timeMs err] w in
            let shouldRetry := (attempt <=? wretries) && wretryOn err in
            if negb shouldRetry then (Rejected err, w)
            else
              let waitMs :=
                computeBackoffMs (backoff config) attempt (random env attempt) in
              let w := fire [onRetry wname attempt waitMs err] w in
              let w := if isPositive waitMs then delay waitMs w else w in
              attempts remaining' (attempt + 1) err w
        end
  end.

(** How the attempt ends that makes invocation number [i] of the
    callable (counted from 0) when [c] controllers exist: the callable's
    own outcome, or the timeout. *)
Definition outcomeAt (i c : nat) : Outcome :=
  raced (timeoutMs config) (signalFor c) (fn env i (signalFor c))
    (onAbort env i (signalFor c)).

(** [w'] is [w] after [m] more attempts that ran the callable and
    settled. *)
Definition progress (m : nat) (w w' : World) : Prop :=
  calls w' = (calls w + m)%nat
  /\ controllers w' = (controllers w + m * ctlStep)%nat
  /\ activeSignal w' = activeSignal w
  /\ attemptsFired (trace w') = (attemptsFired (trace w) + m)%nat.

(** One call of the function that [withResilience] returns. *)
Definition call (w : World) : Outcome * World :=
  attempts (Z.to_nat (wretries + 1)) 1 VUndefined w.

End Wrapped.

(** A world in which nothing has happened yet. *)
Definition world0 : World :=
  {| now := 0; activeSignal := None; controllers := 0; aborted := [];
     timers := []; calls := 0; trace := []; breaker := None |}.

(** ** Cancellable sleep *)

(** The default value of the parameter: [signal = activeSignal]. *)
Definition signalOrActive (signal : option Signal) (w : World)
  : option Signal :=
  match signal with Some s => Some s | None => activeSignal w end.

(** [sleep(ms, signal)]. An omitted (or [undefined]) second argument takes
    the ambient signal read at the call. [abortsIn s] tells after how many
    milliseconds signal [s] is aborted, if ever and by whomever (a timer
    of the world or the holder of the controller); the timer of the sleep
    fires first when it is due at the same millisecond. *)
Definition sleep (ms : Z) (signal : option Signal)
    (abortsIn : Signal -> option Z) (w : World) : Outcome * World :=
  let signal := signalOrActive signal w in
  let t := setTimeoutDelay ms in
  match signal with
  | None => (Resolved VUndefined, advance t w)
  | Some s =>
      if isAborted s w then (Rejected CancelledError, w)
      else
        match abortsIn s with
        | Some a =>
            if a <? t then (Rejected CancelledError, advance a w)
            else (Resolved VUndefined, advance t w)
        | None => (Resolved VUndefined, advance t w)
        end
  end.

(** The promise of [sleep(ms)] under the ambient signal [s], as a callable
    hands it to the wrapper: it fulfils when its timer is due, and the
    listener that [sleep] puts on the signal rejects it within the abort. *)
Definition sleepPromise (ms : Z) : Behaviour :=
  Returns VUndefined (setTimeoutDelay ms).

Definition sleepOnAbort (s : option Signal) : option value :=
  match s with
  | Some _ => Some CancelledError
  | None => None
  end.

(** The delay of [Exponential] before jitter, in exact arithmetic: the
    smaller of [baseDelayMs * 2^(attempt - 1)] and [maxDelayMs]. *)
Definition cappedDelay (baseDelayMs maxDelayMs attempt : Z) : Z :=
  Z.min (baseDelayMs * pow2 (Z.max 0 (attempt - 1))) maxDelayMs.

(** [w'] differs from [w] at most by the breaker, the aborted controllers
    and hooks other than [onAttempt]. *)
Definition sameRun (w w' : World) : Prop :=
  now w' = now w /\ activeSignal w' = activeSignal w
  /\ controllers w' = controllers w /\ calls w' = calls w
  /\ attemptsFired (trace w') = attemptsFired (trace w).

(** The same, but for the clock. *)
Definition sameRun' (w w' : World) : Prop :=
  activeSignal w' = activeSignal w
  /\ controllers w' = controllers w /\ calls w' = calls w
  /\ attemptsFired (trace w') = attemptsFired (trace w).

(** A closed breaker has counted fewer failures than the threshold, and
    the count is never negative. *)
Definition counted (cfg : CircuitBreakerConfig) (b : CircuitBreaker.t) : Prop :=
  0 <= CircuitBreaker.failures b
  /\ (CircuitBreaker.state b = CLOSED ->
      CircuitBreaker.failures b < failureThreshold cfg).

(** A breaker between two calls: CLOSED having counted fewer failures
    than the threshold, or OPEN having counted at least that many. *)
Definition atRest (cfg : CircuitBreakerConfig) (b : CircuitBreaker.t) : Prop :=
  (CircuitBreaker.state b = CLOSED
   /\ CircuitBreaker.failures b < failureThreshold cfg)
  \/ (CircuitBreaker.state b = OPEN
      /\ failureThreshold cfg <= CircuitBreaker.failures b).

(** The name that a hook is told. *)
Definition eventName (ev : Event) : string :=
  match ev with
  | onAttempt n _ | onSuccess n _ _ | onFailure n _ _ _ | onRetry n _ _ _
  | onCircuitOpen n | onCircuitHalfOpen n | onCircuitClosed n => n
  end.

(** How many of the hooks fired are [onRetry], and how many report the end
    of an attempt ([onSuccess] or [onFailure]). *)
Definition retriesFired (t : list Event) : nat :=
  List.length
    (filter (fun ev => match ev with onRetry _ _ _ _ => true | _ => false end) t).

Definition outcomesFired (t : list Event) : nat :=
  List.length
    (filter (fun ev => match ev with
                       | onSuccess _ _ _ | onFailure _ _ _ _ => true
                       | _ => false
                       end) t).

(** The signals that a run from [w] to [w'] may abort: those of the
    controllers it created, when the ambient signal and a timeout are both
    switched on. *)
Definition ownSignal (config : ResilienceConfig) (w w' : World) (s : Signal)
  : Prop :=
  truthy (useAbortSignal config) = true
  /\ noTimeout (timeoutMs config) = false
  /\ (controllers w <= s < controllers w')%nat.

(** The signals that are aborted in [w] or have a timer that is still to
    abort them. *)
Definition touched (w : World) (s : Signal) : Prop :=
  In s (aborted w) \/ exists due, In (due, s) (timers w).

(** Hooks told the name [n], none of them [onAttempt], [onRetry],
    [onSuccess] or [onFailure]: what the breaker fires. *)
Definition breakerHooks (n : string) (evs : list Event) : Prop :=
  Forall (fun ev => eventName ev = n) evs
  /\ attemptsFired evs = 0%nat /\ retriesFired evs = 0%nat
  /\ outcomesFired evs = 0%nat.

(** What is expected of the hooks of the iterations from attempt [a] on:
    [onAttempt] for an index from [a] to [retries + 1]; [onRetry] for an
    index from [a] to [retries], for an error that the retry predicate
    accepts, with the delay that [computeBackoffMs] gives. *)
Definition hookInRange (config : ResilienceConfig) (env : Env) (a : Z)
    (ev : Event) : Prop :=
  match ev with
  | onAttempt _ i => a <= i <= wretries config + 1
  | onRetry _ i delayMs error =>
      a <= i <= wretries config
      /\ wretryOn config error = true
      /\ delayMs = computeBackoffMs (backoff config) i (random env i)
  | _ => True
  end.

(** The product [baseDelayMs * 2^(attempt - 1)] is in range: it is a
    double or overflows upwards. The other cases are 0 times infinity (a
    base delay of 0 from attempt 1025 on) and overflow downwards. *)
Definition rawInRange (baseDelayMs attempt : Z) : Prop :=
  0 < baseDelayMs
  \/ (attempt <= 1024
      /\ - DOUBLE_LIMIT < baseDelayMs * 2 ^ (Z.max 1 attempt - 1)).

(** ** Signal-aware fetch *)

(** The part of a [RequestInit] that the module reads, and the rest of it. *)
Record RequestInit : Type := {
  init_signal : option Signal;
  init_rest : list (string * value)
}.

(** [resilientFetch(input, init)]: the two arguments that [fetch] is called
    with. [init?.signal ?? activeSignal] takes the ambient signal when
    [init] is missing or has no signal; [{...init, signal}] of a missing
    [init] has the signal only. *)
Definition resilientFetch (input : string) (init : option RequestInit)
    (w : World) : string * option RequestInit :=
  let signal :=
    match init with
    | Some i => match init_signal i with
                | Some s => Some s
                | None => activeSignal w
                end
    | None => activeSignal w
    end in
  match signal with
  | None => (input, init)
  | Some s =>
      (input,
       Some {| init_signal := Some s;
               init_rest := match init with
                            | Some i => init_rest i
                            | None => []
                            end |})
  end.

(** [init?.signal] and the other fields of an optional [init]. *)
Definition signalOf (init : option RequestInit) : option Signal :=
  match init with Some i => init_signal i | None => None end.

Definition restOf (init : option RequestInit) : list (string * value) :=
  match init with Some i => init_rest i | None => [] end.

(** ** Metrics adapter *)

(** A [Map<string, number>]: keys in insertion order, each key once. *)
Module JsMap.

Definition t : Type := list (string * Z).

Fixpoint get (k : string) (m : t) : option Z :=
  match m with
  | [] => None
  | (k', v) :: m' => if String.eqb k k' then Some v else get k m'
  end.

Definition has (k : string) (m : t) : bool :=
  match get k m with Some _ => true | None => false end.

Fixpoint set (k : string) (v : Z) (m : t) : t :=
  match m with
  | [] => [(k, v)]
  | (k', v') :: m' =>
      if String.eqb k k' then (k, v) :: m' else (k', v') :: set k v m'
  end.

(** The sum of the values. *)
Fixpoint total (m : t) : Z :=
  match m with
  | [] => 0
  | (_, v) :: m' => v + total m'
  end.

End JsMap.

(** A synchronous callable applied to its arguments: what it returns or
    throws, and how long it runs. *)
Inductive SyncBehaviour : Type :=
| SyncReturns (v : value) (d : Z)
| SyncThrows (e : value) (d : Z).

Record FunctionResult : Type := {
  time : Z;
  returnValue : value;
  inputsCount : Z
}.

Module WrappedFunction.

Record t : Type := {
  fn : list value -> SyncBehaviour;
  args : list value;
  name : string
}.

(** The constructor; [fnName] is [fnPtr.name]. *)
Definition new (fnPtr : list value -> SyncBehaviour) (fnName : string)
    (args : list value) : t :=
  {| fn := fnPtr; args := args; name := fnName |}.

(** [run()]: the result record, or what the function threw. *)
Definition run (wf : t) : FunctionResult + value :=
  match fn wf (args wf) with
  | SyncReturns r_val dif =>
      inl {| time := dif; returnValue := r_val;
             inputsCount := Z.of_nat (List.length (args wf)) |}
  | SyncThrows e _ => inr e
  end.

End WrappedFunction.

Module WrapperInit.

Record t : Type := {
  functionCalls : Z;
  f_store : JsMap.t
}.

Definition new : t := {| functionCalls := 0; f_store := [] |}.

(** [f_store.get(name) ?? 0] *)
Definition count (name : string) (m : t) : Z :=
  match JsMap.get name (f_store m) with Some c => c | None => 0 end.

Definition record (name : string) (m : t) : t :=
  let prev := count name m in
  {| functionCalls := functionCalls m + 1;
     f_store := JsMap.set name (prev + 1) (f_store m) |}.

(** [hooks()]: the only hook subscribed is [onAttempt]. *)
Definition hooks (ev : Event) (m : t) : t :=
  match ev with
  | onAttempt name _ => record name m
  | _ => m
  end.

(** The hooks fired in order. *)
Definition observe (evs : list Event) (m : t) : t :=
  fold_left (fun m ev => hooks ev m) evs m.

(** The configuration that [wrap] hands to [withResilience]. *)
Definition wrap (config : ResilienceConfig) (env : Env) : ResilienceConfig :=
  {| name := Some (wname config env);
     timeoutMs := timeoutMs config; retries := retries config;
     backoff := backoff config; retryOn := retryOn config;
     circuitBreaker := circuitBreaker config;
     useAbortSignal := useAbortSignal config |}.

(** [run(fn, ...args)]: the value returned or thrown, and the metrics
    afterwards. The callable is taken not to touch the metrics itself, so
    the key registered before the call is still there after it and the
    cast of [f_store.get(wf.name)] to a number is sound. *)
Definition run (fnPtr : list value -> SyncBehaviour) (fnName : string)
    (args : list value) (m : t) : (value + value) * t :=
  let wf := WrappedFunction.new fnPtr fnName args in
  let store :=
    if JsMap.has (WrappedFunction.name wf) (f_store m) then f_store m
    else JsMap.set (WrappedFunction.name wf) 0 (f_store m) in
  match WrappedFunction.run wf with
  | inr e => (inr e, {| functionCalls := functionCalls m; f_store := store |})
  | inl val =>
      let cur_count :=
        match JsMap.get (WrappedFunction.name wf) store with
        | Some c => c
        | None => 0
        end in
      (inl (returnValue val),
       {| functionCalls := functionCalls m + 1;
          f_store := JsMap.set (WrappedFunction.name wf) (cur_count + 1) store |})
  end.

End WrapperInit.

(** The hooks that a run from [w] to [w'] fired. *)
Definition newEvents (w w' : World) : list Event :=
  skipn (List.length (trace w)) (trace w').

(** One call of a function wrapped by [WrapperInit.wrap]: the call, with
    the metrics fed by its hooks. *)
Definition callWrapped (config : ResilienceConfig) (env : Env)
    (mw : WrapperInit.t * World) : Outcome * (WrapperInit.t * World) :=
  let (m, w) := mw in
  let (o, w') := call (WrapperInit.wrap config env) env w in
  (o, (WrapperInit.observe (newEvents w w') m, w')).

(** ** Scenarios

    Concrete configurations, callables and states on which the properties
    below are evaluated. *)

Module Scenario.

(** A breaker that trips at the first failure and cools down in 10 ms. *)
Definition cb1 : CircuitBreakerConfig :=
  {| failureThreshold := 1; resetTimeoutMs := 10 |}.

(** One failure at time 0, then a probe at time 10. *)
Definition halfOpen1 : CircuitBreaker.t :=
  snd (fst (CircuitBreaker.canAttempt cb1 "f"
              (fst (CircuitBreaker.onFailure cb1 "f" CircuitBreaker.new 0))
              10)).

(** A callable that throws ["boom"] after 5 ms, every time. *)
Definition alwaysFails : Env :=
  {| fn_name := "f";
     fn := fun _ _ => Throws (VError "boom") 5;
     onAbort := fun _ _ => None;
     random := fun _ => zeroDraw |}.

(** Three retries behind the breaker [cb1]. *)
Definition guarded : ResilienceConfig :=
  {| name := None; timeoutMs := None; retries := Some 3; backoff := None;
     retryOn := None; circuitBreaker := Some cb1; useAbortSignal := None |}.

(** The breaker opened at time 0 and the clock shows 5. *)
Definition openAt5 : World :=
  {| now := 5; activeSignal := None; controllers := 0; aborted := [];
     timers := []; calls := 1; trace := [];
     breaker := Some {| CircuitBreaker.state := OPEN;
                        CircuitBreaker.failures := 1;
                        CircuitBreaker.openedAt := 0 |} |}.

(** Five retries, none of which the predicate allows. *)
Definition picky : ResilienceConfig :=
  {| name := None; timeoutMs := None; retries := Some 5; backoff := None;
     retryOn := Some (fun _ => false); circuitBreaker := None;
     useAbortSignal := None |}.

(** A callable that never settles, under a timeout of 50 ms and with
    the ambient signal switched on. *)
Definition neverSettles : Env :=
  {| fn_name := "g"; fn := fun _ _ => Hangs;
     onAbort := fun _ _ => None; random := fun _ => zeroDraw |}.

Definition timed : ResilienceConfig :=
  {| name := None; timeoutMs := Some 50; retries := None; backoff := None;
     retryOn := None; circuitBreaker := None; useAbortSignal := Some true |}.

(** A caller that already has signal 7 in the slot. *)
Definition nested : World :=
  {| now := 1000; activeSignal := Some 7%nat; controllers := 8;
     aborted := []; timers := []; calls := 0; trace := [];
     breaker := None |}.

(** A breaker of threshold 3 that cools down in 1000 ms, no retry, and a
    callable that throws three times and then returns 42. *)
Definition cb3 : CircuitBreakerConfig :=
  {| failureThreshold := 3; resetTimeoutMs := 1000 |}.

Definition protected : ResilienceConfig :=
  {| name := None; timeoutMs := None; retries := None; backoff := None;
     retryOn := None; circuitBreaker := Some cb3; useAbortSignal := None |}.

Definition failsThrice : Env :=
  {| fn_name := "f";
     fn := fun i _ => if Nat.ltb i 3 then Throws (VError "boom") 5
                      else Returns (VNum 42) 5;
     onAbort := fun _ _ => None;
     random := fun _ => zeroDraw |}.

Definition afterCall (w : World) : World := snd (call protected failsThrice w).

(** The world after three calls in a row. *)
Definition threeFailures : World :=
  afterCall (afterCall (afterCall (withResilience protected world0))).

(** Three retries and nothing else. *)
Definition plain3 : ResilienceConfig :=
  {| name := None; timeoutMs := None; retries := Some 3; backoff := None;
     retryOn := None; circuitBreaker := None; useAbortSignal := None |}.

(** A callable that throws once and then returns 42. *)
Definition failsOnce : Env :=
  {| fn_name := "f";
     fn := fun i _ => if Nat.ltb i 1 then Throws (VError "boom") 5
                      else Returns (VNum 42) 5;
     onAbort := fun _ _ => None;
     random := fun _ => zeroDraw |}.

(** A retry count below zero. *)
Definition negative : ResilienceConfig :=
  {| name := None; timeoutMs := None; retries := Some (-1); backoff := None;
     retryOn := None; circuitBreaker := None; useAbortSignal := None |}.

(** Two calls with [useAbortSignal] in flight together: the first makes
    two attempts (frames 0 and 2), and the only attempt of the second
    (frame 1) starts during the first attempt of the first and ends after
    it. *)
Definition overlapping : list SlotStep :=
  [Enter 0 (Some 0%nat); Enter 1 (Some 1%nat); Leave 0; Leave 1;
   Enter 2 (Some 2%nat); Leave 2].

(** [() => sleep(1000)] *)
Definition sleeper : Env :=
  {| fn_name := "nap";
     fn := fun _ _ => sleepPromise 1000;
     onAbort := fun _ s => sleepOnAbort s;
     random := fun _ => zeroDraw |}.

End Scenario.

(** * Properties *)

(** ** Backoff calculator *)

Lemma exponent_clamped (attempt : Z) :
  Z.max 0 (attempt - 1) = Z.max 1 attempt - 1.
Proof. lia. Qed.

Lemma DOUBLE_LIMIT_pos : 0 < DOUBLE_LIMIT.
Proof. reflexivity. Qed.

(** Where the product is in range, the double arithmetic of the source
    gives the exact result. *)
Lemma capped_exact (b m a : Z) :
  m < DOUBLE_LIMIT -> rawInRange b a ->
  mathMin (times b (mathPow2 (Z.max 0 (a - 1)))) m = Num (cappedDelay b m a).
Proof.
  intros Hm Hr. unfold rawInRange in Hr. unfold cappedDelay, pow2.
  rewrite exponent_clamped in *.
  set (e := Z.max 1 a - 1) in *.
  assert (He : 0 <= e) by (subst e; lia).
  assert (Hp : 0 < 2 ^ e) by (apply Z.pow_pos_nonneg; lia).
  pose proof DOUBLE_LIMIT_pos as HL.
  unfold mathPow2. destruct (e <=? 1023) eqn:E.
  - unfold times.
    destruct (DOUBLE_LIMIT <=? b * 2 ^ e) eqn:E1.
    + apply Z.leb_le in E1. simpl. f_equal. lia.
    + destruct (b * 2 ^ e <=? - DOUBLE_LIMIT) eqn:E2; [|reflexivity].
      apply Z.leb_le in E2.
      destruct Hr as [Hb | [_ Hr]]; [|lia].
      assert (0 < b * 2 ^ e) by (apply Z.mul_pos_pos; lia). lia.
  - apply Z.leb_gt in E.
    destruct Hr as [Hb | [Ha _]]; [|subst e; lia].
    unfold times.
    replace (b =? 0) with false by (symmetry; apply Z.eqb_neq; lia).
    replace (0 <? b) with true by (symmetry; apply Z.ltb_lt; lia).
    simpl. f_equal.
    assert (DOUBLE_LIMIT <= 2 ^ e).
    { unfold DOUBLE_LIMIT. apply Z.pow_le_mono_r; lia. }
    assert (2 ^ e <= b * 2 ^ e) by nia.
    lia.
Qed.

(** Rounding to a double moves a number by half a unit of its last place
    at most. *)
Lemma roundToDouble_near (n : Z) :
  0 <= n ->
  0 <= roundToDouble n
  /\ (roundToDouble n = n
      \/ (53 <= Z.log2 n /\ roundToDouble n <= n + 2 ^ (Z.log2 n - 53))).
Proof.
  intros Hn. unfold roundToDouble.
  destruct (Z.log2 n + 1 <=? 53) eqn:E; [split; [exact Hn | now left]|].
  apply Z.leb_gt in E.
  set (s := Z.log2 n + 1 - 53).
  assert (Hs : 1 <= s) by (subst s; lia).
  assert (HP : 2 ^ s = 2 * 2 ^ (s - 1)).
  { replace s with (Z.succ (s - 1)) at 1 by lia. apply Z.pow_succ_r. lia. }
  assert (HH : 0 < 2 ^ (s - 1)) by (apply Z.pow_pos_nonneg; lia).
  pose proof (Z.div_mod n (2 ^ s) ltac:(lia)) as Hdm.
  pose proof (Z.mod_pos_bound n (2 ^ s) ltac:(lia)) as Hmod.
  assert (Hq : 0 <= n / 2 ^ s) by (apply Z.div_pos; lia).
  replace (Z.log2 n - 53) with (s - 1) by (subst s; lia).
  set (q := n / 2 ^ s) in *. set (r := n mod 2 ^ s) in *.
  set (H := 2 ^ (s - 1)) in *.
  destruct ((H <? r) || ((r =? H) && Z.odd q)) eqn:Eup.
  - assert (Hr : H <= r).
    { apply orb_true_iff in Eup. destruct Eup as [Hlt | Heq].
      - apply Z.ltb_lt in Hlt. lia.
      - apply andb_true_iff in Heq. destruct Heq as [Heq _].
        apply Z.eqb_eq in Heq. lia. }
    split; [nia|]. right. split; [lia|]. nia.
  - split; [nia|]. right. split; [lia|]. nia.
Qed.

(** The product of a number below 1 and [c > 0] stays below [c] when it is
    rounded. *)
Lemma roundToDouble_below (m c : Z) :
  0 <= m < 2 ^ 53 -> 0 < c ->
  0 <= roundToDouble (m * c) < 2 ^ 53 * c.
Proof.
  intros Hm Hc.
  assert (Hn : 0 <= m * c) by nia.
  destruct (roundToDouble_near (m * c) Hn) as (H0 & [Heq | (Hl & Hle)]).
  - split; [exact H0|]. rewrite Heq. nia.
  - split; [exact H0|].
    assert (Hpos : 0 < m * c).
    { destruct (Z.eq_dec (m * c) 0) as [E | E]; [|lia].
      rewrite E in Hl. simpl in Hl. lia. }
    destruct (Z.log2_spec (m * c) Hpos) as [Hlo _].
    assert (Hsplit : 2 ^ Z.log2 (m * c) = 2 ^ (Z.log2 (m * c) - 53) * 2 ^ 53).
    { rewrite <- Z.pow_add_r by lia. f_equal. lia. }
    assert (HH : 0 < 2 ^ (Z.log2 (m * c) - 53)) by (apply Z.pow_pos_nonneg; lia).
    set (H := 2 ^ (Z.log2 (m * c) - 53)) in *.
    assert (H < c) by nia.
    nia.
Qed.

Lemma floorTimes_range (r : Draw) (c : Z) :
  isDraw r -> 0 < c -> 0 <= floorTimes r c < c.
Proof.
  intros ((Hm0 & Hm1) & (Hk0 & Hk1)) Hc. unfold floorTimes.
  replace (0 <=? c) with true by (symmetry; apply Z.leb_le; lia).
  replace (Z.abs c) with c by lia.
  destruct (roundToDouble_below (mantissa r) c (conj Hm0 Hm1) Hc) as (H0 & H1).
  assert (Hk : 2 ^ 53 <= 2 ^ scale r) by (apply Z.pow_le_mono_r; lia).
  assert (Hp : 0 < 2 ^ scale r) by (apply Z.pow_pos_nonneg; lia).
  split.
  - apply Z.div_pos; lia.
  - apply Z.div_lt_upper_bound; [exact Hp|]. nia.
Qed.

Lemma floorTimes_zero (r : Draw) : floorTimes r 0 = 0.
Proof.
  unfold floorTimes. rewrite Z.mul_0_r. reflexivity.
Qed.

(** C5 (as amended). The backoff calculator returns 0 without a strategy,
    [delayMs] for [Fixed] whatever the attempt, and for [Exponential]
    without jitter [baseDelayMs * 2^(attempt-1)] clamped to [maxDelayMs],
    an attempt of 0 or less counting as 1, as long as the product is in
    range ([rawInRange]: it may overflow upwards, but it is not 0 times
    infinity and does not overflow downwards); [Exponential {50, 400}]
    gives 50, 100, 200, 400, 400 for attempts 1 to 5. With jitter, a draw
    that is a double in [0,1) and the product in range, the result is a
    whole number in [0, cappedDelay) when the capped delay is positive, and
    0 when the capped delay is 0. *)
Theorem computeBackoffMs_spec :
  forall (attempt : Z) (rnd : Draw) (delayMs baseDelayMs maxDelayMs : Z)
         (jitter : option bool),
    computeBackoffMs None attempt rnd = Num 0
    /\ computeBackoffMs (Some (Fixed delayMs)) attempt rnd = Num delayMs
    /\ (truthy jitter = false ->
        maxDelayMs < DOUBLE_LIMIT -> rawInRange baseDelayMs attempt ->
        computeBackoffMs (Some (Exponential baseDelayMs maxDelayMs jitter))
          attempt rnd
        = Num (Z.min (baseDelayMs * 2 ^ (Z.max 1 attempt - 1)) maxDelayMs))
    /\ map (fun a => computeBackoffMs (Some (Exponential 50 400 None)) a rnd)
         [1; 2; 3; 4; 5] = [Num 50; Num 100; Num 200; Num 400; Num 400]
    /\ (isDraw rnd ->
        maxDelayMs < DOUBLE_LIMIT -> rawInRange baseDelayMs attempt ->
        0 < cappedDelay baseDelayMs maxDelayMs attempt ->
        exists z,
          computeBackoffMs
            (Some (Exponential baseDelayMs maxDelayMs (Some true))) attempt rnd
          = Num z
          /\ 0 <= z < cappedDelay baseDelayMs maxDelayMs attempt)
    /\ (maxDelayMs < DOUBLE_LIMIT -> rawInRange baseDelayMs attempt ->
        cappedDelay baseDelayMs maxDelayMs attempt = 0 ->
        computeBackoffMs
          (Some (Exponential baseDelayMs maxDelayMs (Some true))) attempt rnd
        = Num 0).
Proof.
  intros attempt rnd delayMs baseDelayMs maxDelayMs jitter.
  split; [reflexivity|]. split; [reflexivity|]. split; [|split; [|split]].
  - intros Hj Hm Hr. unfold computeBackoffMs. rewrite Hj. simpl.
    rewrite (capped_exact _ _ _ Hm Hr). unfold cappedDelay, pow2.
    now rewrite exponent_clamped.
  - vm_compute. reflexivity.
  - intros Hd Hm Hr Hc. unfold computeBackoffMs, truthy, negb.
    rewrite (capped_exact _ _ _ Hm Hr). simpl.
    eexists. split; [reflexivity|]. now apply floorTimes_range.
  - intros Hm Hr Hc. unfold computeBackoffMs, truthy, negb.
    rewrite (capped_exact _ _ _ Hm Hr), Hc. simpl.
    now rewrite floorTimes_zero.
Qed.

(** The jitter bound of C5 at a draw of 1/2, base 50, cap 400, attempt 3. *)
Lemma computeBackoffMs_spec_witness :
  exists z,
    computeBackoffMs (Some (Exponential 50 400 (Some true))) 3
      {| mantissa := 2 ^ 52; scale := 53 |} = Num z
    /\ 0 <= z < cappedDelay 50 400 3.
Proof.
  assert (Hd : isDraw {| mantissa := 2 ^ 52; scale := 53 |})
    by (unfold isDraw; simpl; lia).
  assert (Hm : 400 < DOUBLE_LIMIT) by reflexivity.
  assert (Hr : rawInRange 50 3) by (left; lia).
  assert (Hc : 0 < cappedDelay 50 400 3) by reflexivity.
  destruct (computeBackoffMs_spec 3 {| mantissa := 2 ^ 52; scale := 53 |}
              0 50 400 None) as (_ & _ & _ & _ & H & _).
  exact (H Hd Hm Hr Hc).
Defined.

(** C5 as stated fails in two corners. With jitter and a capped delay of
    0 the result is 0, which the empty interval [0, 0) does not hold. And
    with a base delay of 0 the product is 0 times infinity from attempt
    1025 on: the result is NaN, not the clamped product. *)
Lemma computeBackoffMs_corner_cases :
  ~ (forall (baseDelayMs maxDelayMs attempt : Z) (rnd : Draw),
        isDraw rnd ->
        exists z,
          computeBackoffMs
            (Some (Exponential baseDelayMs maxDelayMs (Some true))) attempt rnd
          = Num z
          /\ 0 <= z < cappedDelay baseDelayMs maxDelayMs attempt)
  /\ computeBackoffMs (Some (Exponential 0 400 None)) 1025 zeroDraw = NaN
  /\ cappedDelay 0 400 1025 = 0.
Proof.
  split; [|split; vm_compute; reflexivity].
  intros H.
  assert (Hd : isDraw zeroDraw) by (unfold isDraw; simpl; lia).
  destruct (H 0 0 1 zeroDraw Hd) as (z & _ & Hz).
  vm_compute in Hz. destruct Hz as [Hz1 Hz2].
  destruct z; simpl in *; try discriminate; now elim Hz1.
Qed.

(** ** Circuit breaker *)

Module BreakerFacts.
Import CircuitBreaker.

Section Invariant.
Variable cfg : CircuitBreakerConfig.
Variable name : string.

Lemma tripped_new : tripped cfg new.
Proof. intros H. now elim H. Qed.

Lemma tripped_canAttempt b now :
  tripped cfg b -> tripped cfg (snd (fst (canAttempt cfg name b now))).
Proof.
  unfold tripped, canAttempt. intros Hb.
  destruct (state b) eqn:Est; simpl.
  - now rewrite Est.
  - destruct (resetTimeoutMs cfg <=? now - openedAt b); simpl.
    + intros _. apply Hb. discriminate.
    + rewrite Est. intros _. apply Hb. discriminate.
  - rewrite Est. intros _. apply Hb. discriminate.
Qed.

Lemma tripped_onSuccess b : tripped cfg (fst (onSuccess name b)).
Proof. intros H. now elim H. Qed.

Lemma tripped_onFailure b now :
  tripped cfg b -> tripped cfg (fst (onFailure cfg name b now)).
Proof.
  unfold tripped, onFailure. intros Hb.
  destruct (failureThreshold cfg <=? failures b + 1) eqn:E; simpl.
  - intros _. now apply Z.leb_le.
  - intros Hs. specialize (Hb Hs). lia.
Qed.

Lemma reachable_tripped b : reachable cfg name b -> tripped cfg b.
Proof.
  induction 1;
    auto using tripped_new, tripped_canAttempt, tripped_onSuccess,
               tripped_onFailure.
Qed.

(** A failure reported to a tripped breaker opens it. *)
Lemma tripped_failure_opens b now :
  tripped cfg b -> state b <> CLOSED ->
  state (fst (onFailure cfg name b now)) = OPEN.
Proof.
  intros Hb Hs. unfold onFailure. specialize (Hb Hs).
  destruct (failureThreshold cfg <=? failures b + 1) eqn:E; simpl.
  - reflexivity.
  - apply Z.leb_gt in E. lia.
Qed.
End Invariant.
End BreakerFacts.

(** C10. For a breaker with [failureThreshold >= 1], in every state that
    [canAttempt], [onSuccess] and [onFailure] can reach from the initial
    one (CLOSED, no failure), OPEN and HALF_OPEN come with a failure count
    of at least [failureThreshold]; hence a failure reported while
    HALF_OPEN opens the circuit again at once. *)
Theorem breaker_open_means_threshold_reached :
  forall (cfg : CircuitBreakerConfig) (name : string) (b : CircuitBreaker.t),
    1 <= failureThreshold cfg ->
    CircuitBreaker.reachable cfg name b ->
    (CircuitBreaker.state b = OPEN \/ CircuitBreaker.state b = HALF_OPEN ->
     failureThreshold cfg <= CircuitBreaker.failures b)
    /\ (CircuitBreaker.state b = HALF_OPEN ->
        forall now,
          CircuitBreaker.state (fst (CircuitBreaker.onFailure cfg name b now))
          = OPEN).
Proof.
  intros cfg name b _ Hr.
  pose proof (BreakerFacts.reachable_tripped cfg name b Hr) as Ht.
  split.
  - intros [H | H]; apply Ht; rewrite H; discriminate.
  - intros H now. apply BreakerFacts.tripped_failure_opens; [assumption|].
    rewrite H; discriminate.
Qed.

(** C10 at the state of a breaker of threshold 1 that failed once and was
    probed after its cool-down. *)
Lemma breaker_open_means_threshold_reached_witness :
  1 <= CircuitBreaker.failures Scenario.halfOpen1
  /\ CircuitBreaker.state
       (fst (CircuitBreaker.onFailure Scenario.cb1 "f" Scenario.halfOpen1 25))
     = OPEN.
Proof.
  assert (Hr : CircuitBreaker.reachable Scenario.cb1 "f" Scenario.halfOpen1).
  { unfold Scenario.halfOpen1.
    apply CircuitBreaker.reach_canAttempt, CircuitBreaker.reach_onFailure,
      CircuitBreaker.reach_new. }
  assert (Ht : 1 <= failureThreshold Scenario.cb1) by (simpl; lia).
  destruct (breaker_open_means_threshold_reached Scenario.cb1 "f"
              Scenario.halfOpen1 Ht Hr) as [Hf Ho].
  split.
  - apply Hf. right. reflexivity.
  - apply Ho. reflexivity.
Defined.

(** ** Timeout controller *)

Lemma setTimeoutDelay_in_range (ms : Z) :
  0 <= ms <= TIMEOUT_MAX -> setTimeoutDelay ms = ms.
Proof.
  intros H. unfold setTimeoutDelay.
  replace (ms <=? TIMEOUT_MAX) with true by (symmetry; apply Z.leb_le; lia).
  lia.
Qed.

Lemma setTimeoutDelay_bounds (ms : Z) :
  0 <= setTimeoutDelay ms /\ (0 < ms -> 0 < setTimeoutDelay ms <= ms).
Proof.
  unfold setTimeoutDelay, TIMEOUT_MAX.
  destruct (ms <=? 2147483647) eqn:E;
    [apply Z.leb_le in E | apply Z.leb_gt in E]; lia.
Qed.

Lemma noTimeout_positive (ms : Z) : 0 < ms -> noTimeout (Some ms) = false.
Proof. intros H. unfold noTimeout. apply Z.eqb_neq. lia. Qed.

(** The race when the timer is due before the promise settles. *)
Lemma withTimeout_timer_first p reaction ms controller w :
  0 < ms ->
  match settlesAfter p with
  | Some d => setTimeoutDelay ms < d
  | None => True
  end ->
  withTimeout p reaction (Some ms) controller w
  = timerFires (setTimeoutDelay ms) controller reaction w.
Proof.
  intros Hms Hfirst. unfold withTimeout.
  rewrite (noTimeout_positive ms Hms).
  destruct (settlesAfter p) as [d|]; [|reflexivity].
  replace (d <=? setTimeoutDelay ms) with false
    by (symmetry; apply Z.leb_gt; lia).
  reflexivity.
Qed.

(** The race when the promise settles before the timer is due, or at the
    same millisecond. *)
Lemma withTimeout_promise_first p reaction ms controller w d :
  0 < ms -> settlesAfter p = Some d -> d <= setTimeoutDelay ms ->
  withTimeout p reaction (Some ms) controller w
  = (fst (await p w),
     armTimer (now w + setTimeoutDelay ms) controller (snd (await p w))).
Proof.
  intros Hms Hd Hle. unfold withTimeout.
  rewrite (noTimeout_positive ms Hms), Hd.
  replace (d <=? setTimeoutDelay ms) with true
    by (symmetry; apply Z.leb_le; lia).
  reflexivity.
Qed.

(** C6, at the failing input. A callable that returns the promise of
    [sleep(1000)], wrapped with a timeout of 50 ms and the ambient signal:
    the timer fires first and aborts the controller, the listener of the
    sleep rejects the raced promise within that abort, before the timer
    rejects with [TimeoutError], and the call rejects with the error of the
    sleep. *)
Theorem timeout_surfaces_abort_error :
  fn Scenario.sleeper 0 (Some 0%nat) = Returns VUndefined 1000
  /\ fst (call Scenario.timed Scenario.sleeper world0) = Rejected CancelledError
  /\ fst (call Scenario.timed Scenario.sleeper world0) <> Rejected TimeoutError
  /\ now (snd (call Scenario.timed Scenario.sleeper world0)) = 50
  /\ isAborted 0%nat (snd (call Scenario.timed Scenario.sleeper world0)) = true.
Proof.
  split; [reflexivity|]. split; [reflexivity|]. split; [discriminate|].
  split; reflexivity.
Qed.

(** ** Cancellable sleep *)

(** C8 (as amended). [sleep ms signal], the signal being the ambient one
    when none is given, for a duration from 1 ms to 2^31 - 1 ms: resolves
    after [ms] when there is no signal or the signal is never aborted, and
    rejects with the cancellation error at the time of the abort when the
    signal is aborted before [ms] have passed. For every duration it
    rejects at once with the cancellation error when the signal is already
    aborted at the call. *)
Theorem sleep_spec :
  forall (ms : Z) (signal : option Signal) (abortsIn : Signal -> option Z)
         (w : World),
    (1 <= ms <= TIMEOUT_MAX ->
     signal = None -> activeSignal w = None ->
     sleep ms signal abortsIn w = (Resolved VUndefined, advance ms w))
    /\ (forall s,
          signal = Some s \/ (signal = None /\ activeSignal w = Some s) ->
          (1 <= ms <= TIMEOUT_MAX ->
           isAborted s w = false -> abortsIn s = None ->
           sleep ms signal abortsIn w = (Resolved VUndefined, advance ms w))
          /\ (isAborted s w = true ->
              sleep ms signal abortsIn w = (Rejected CancelledError, w))
          /\ (forall a,
                1 <= ms <= TIMEOUT_MAX ->
                isAborted s w = false -> abortsIn s = Some a -> a < ms ->
                sleep ms signal abortsIn w
                = (Rejected CancelledError, advance a w))).
Proof.
  intros ms signal abortsIn w. split.
  - intros Hms -> Hs. unfold sleep, signalOrActive. rewrite Hs.
    rewrite setTimeoutDelay_in_range by lia. reflexivity.
  - intros s Hsig.
    assert (E : signalOrActive signal w = Some s).
    { destruct Hsig as [-> | [-> Hs]]; [reflexivity | exact Hs]. }
    unfold sleep. rewrite E. repeat split.
    + intros Hms -> ->. rewrite setTimeoutDelay_in_range by lia. reflexivity.
    + intros ->. reflexivity.
    + intros a Hms -> -> Ha. rewrite setTimeoutDelay_in_range by lia.
      replace (a <? ms) with true by (symmetry; apply Z.ltb_lt; lia).
      reflexivity.
Qed.

(** C8 for a sleep of 100 ms under an ambient signal aborted after 30 ms. *)
Lemma sleep_spec_witness :
  sleep 100 None (fun _ => Some 30) (set_activeSignal (Some 0%nat) world0)
  = (Rejected CancelledError,
     advance 30 (set_activeSignal (Some 0%nat) world0)).
Proof.
  destruct (sleep_spec 100 None (fun _ => Some 30)
              (set_activeSignal (Some 0%nat) world0)) as [_ H].
  destruct (H 0%nat) as (_ & _ & Ha); [right; split; reflexivity|].
  apply Ha; [unfold TIMEOUT_MAX; lia | reflexivity | reflexivity | lia].
Defined.

(** The promise that a callable gets from [sleep] is the one that
    [sleepPromise] and [sleepOnAbort] describe: left alone it fulfils when
    the timer is due, and an abort before that rejects it with the
    cancellation error. *)
Lemma sleepPromise_agrees (ms : Z) (s : Signal) (w : World) :
  isAborted s w = false ->
  sleep ms (Some s) (fun _ => None) w = await (sleepPromise ms) w
  /\ forall a,
       a < setTimeoutDelay ms ->
       Some (fst (sleep ms (Some s) (fun _ => Some a) w))
       = option_map Rejected (sleepOnAbort (Some s)).
Proof.
  intros Hs. unfold sleep, signalOrActive. rewrite Hs. split; [reflexivity|].
  intros a Ha.
  replace (a <? setTimeoutDelay ms) with true
    by (symmetry; apply Z.ltb_lt; lia).
  reflexivity.
Qed.

(** C8 as stated fails for a duration of 2^31 ms: the timer is due after
    1 ms, so the sleep resolves then, not after the duration, and an abort
    of its signal 5 seconds into the wait is not seen. *)
Lemma sleep_beyond_timer_range :
  sleep 2147483648 None (fun _ => None) world0
  = (Resolved VUndefined, advance 1 world0)
  /\ now (advance 1 world0) <> now (advance 2147483648 world0)
  /\ sleep 2147483648 (Some 0%nat) (fun _ => Some 5000) world0
     = (Resolved VUndefined, advance 1 world0).
Proof.
  split; [reflexivity|]. split; [discriminate | reflexivity].
Qed.

(** ** Attempt orchestrator: what one attempt changes *)

Lemma withTimeout_outcome p r t c w :
  fst (withTimeout p r t c w) = raced t c p r.
Proof.
  unfold raced, withTimeout, timerFires, await.
  destruct (noTimeout t); destruct p; simpl;
    try reflexivity; match goal with |- context [?a <=? ?b] =>
      destruct (a <=? b); reflexivity end.
Qed.

Lemma armTimer_frame due c w :
  let w' := armTimer due c w in
  now w' = now w /\ calls w' = calls w /\ controllers w' = controllers w
  /\ activeSignal w' = activeSignal w /\ breaker w' = breaker w
  /\ trace w' = trace w /\ aborted w' = aborted w.
Proof. destruct c; simpl; repeat split; reflexivity. Qed.

(** The race moves the clock, arms a timer and may abort controllers,
    nothing else. *)
Lemma withTimeout_frame p r t c w :
  let w' := snd (withTimeout p r t c w) in
  calls w' = calls w /\ controllers w' = controllers w
  /\ activeSignal w' = activeSignal w /\ breaker w' = breaker w
  /\ trace w' = trace w.
Proof.
  unfold withTimeout, timerFires, await, abort.
  destruct (noTimeout t); destruct p; destruct c; simpl;
    try (repeat split; reflexivity);
    match goal with |- context [?a <=? ?b] =>
      destruct (a <=? b); simpl; repeat split; reflexivity end.
Qed.

Lemma raced_Throws t c r e d :
  exists e', raced t c (Throws e d) r = Rejected e'.
Proof.
  unfold raced, withTimeout, timerFires, await.
  destruct (noTimeout t); simpl; [now exists e|].
  match goal with |- context [?a <=? ?b] => destruct (a <=? b) end;
    simpl; [now exists e |].
  destruct c, r; simpl; eauto.
Qed.

Lemma raced_no_timeout t c p r :
  noTimeout t = true -> raced t c p r = fst (await p world0).
Proof. unfold raced, withTimeout. now intros ->. Qed.

(** The wait between two attempts is a move of the clock. *)
Lemma delay_advance ms w : exists t, delay ms w = advance t w.
Proof. destruct ms; simpl; eauto. Qed.

Ltac waited :=
  try match goal with
      | |- context [delay ?m ?w] =>
          let t := fresh "t" in destruct (delay_advance m w) as [t ->]
      end.

Lemma attemptsFired_app t1 t2 :
  attemptsFired (t1 ++ t2) = (attemptsFired t1 + attemptsFired t2)%nat.
Proof. unfold attemptsFired. now rewrite filter_app, length_app. Qed.

Section Orchestrator.
Variable config : ResilienceConfig.
Variable env : Env.

Lemma attemptWork_spec w :
  let o := fst (attemptWork config env w) in
  let w' := snd (attemptWork config env w) in
  o = outcomeAt config env (calls w) (controllers w)
  /\ calls w' = S (calls w)
  /\ controllers w' = (controllers w + ctlStep config)%nat
  /\ breaker w' = breaker w
  /\ trace w' = trace w
  /\ (o <> Pending -> activeSignal w' = activeSignal w).
Proof.
  unfold attemptWork, outcomeAt, signalFor, ctlStep, runWithActiveSignal,
    invoke, newController.
  destruct (truthy (useAbortSignal config)); simpl;
    match goal with |- context [withTimeout ?p ?r ?t ?c ?x] =>
      pose proof (withTimeout_outcome p r t c x) as Ho;
      pose proof (withTimeout_frame p r t c x) as Hf;
      destruct (withTimeout p r t c x) as [o w'] eqn:E
    end;
    simpl in Ho, Hf; destruct Hf as (Hc & Hk & Hs & Hb & Ht);
    destruct o; simpl in *;
      repeat split; try assumption; try congruence; try lia.
Qed.

Lemma fire_nil w : fire [] w = w.
Proof. destruct w. unfold fire. simpl. now rewrite app_nil_r. Qed.

Lemma set_breaker_same w b : breaker w = b -> set_breaker b w = w.
Proof. intros <-. now destruct w. Qed.

Lemma breakerOf_breaker w c b :
  breakerOf config w = Some (c, b) ->
  circuitBreaker config = Some c /\ breaker w = Some b.
Proof.
  unfold breakerOf. destruct (circuitBreaker config), (breaker w);
    intros H; inversion H; auto.
Qed.

Lemma breakerOf_fire evs w : breakerOf config (fire evs w) = breakerOf config w.
Proof. reflexivity. Qed.

(** A refusal leaves the breaker as it was and fires no hook. *)
Lemma canAttempt_false c n b t :
  fst (fst (CircuitBreaker.canAttempt c n b t)) = false ->
  CircuitBreaker.canAttempt c n b t = (false, b, []).
Proof.
  unfold CircuitBreaker.canAttempt.
  destruct (CircuitBreaker.state b); simpl; try discriminate;
    destruct (resetTimeoutMs c <=? t - CircuitBreaker.openedAt b); simpl;
    try discriminate; reflexivity.
Qed.

Lemma refused_true w c b :
  breakerOf config w = Some (c, b) ->
  fst (fst (CircuitBreaker.canAttempt c (wname config env) b (now w))) = false ->
  refused config env w = (true, w).
Proof.
  intros Hb Hc. unfold refused. rewrite Hb.
  rewrite (canAttempt_false _ _ _ _ Hc). simpl.
  rewrite fire_nil. f_equal. apply set_breaker_same.
  now apply breakerOf_breaker in Hb.
Qed.

Lemma refused_none w : breakerOf config w = None -> refused config env w = (false, w).
Proof. unfold refused. now intros ->. Qed.

Lemma attemptsFired_breaker_events c n b t :
  attemptsFired (snd (CircuitBreaker.canAttempt c n b t)) = 0%nat
  /\ attemptsFired (snd (CircuitBreaker.onSuccess n b)) = 0%nat
  /\ attemptsFired (snd (CircuitBreaker.onFailure c n b t)) = 0%nat.
Proof.
  unfold CircuitBreaker.canAttempt, CircuitBreaker.onSuccess,
    CircuitBreaker.onFailure.
  repeat split.
  - destruct (CircuitBreaker.state b); simpl; try reflexivity;
      destruct (resetTimeoutMs c <=? t - CircuitBreaker.openedAt b);
      reflexivity.
  - destruct (CircuitBreaker.state b); reflexivity.
  - destruct (failureThreshold c <=? CircuitBreaker.failures b + 1);
      reflexivity.
Qed.

Lemma refused_sameRun w : sameRun w (snd (refused config env w)).
Proof.
  unfold refused, sameRun. destruct (breakerOf config w) as [[c b]|]; simpl.
  - destruct (attemptsFired_breaker_events c (wname config env) b (now w))
      as (H & _ & _).
    destruct (CircuitBreaker.canAttempt c (wname config env) b (now w))
      as [[ok b'] evs]. simpl in *.
    rewrite attemptsFired_app, H. repeat split; lia.
  - repeat split; reflexivity.
Qed.

Lemma breakerSuccess_sameRun w : sameRun w (breakerSuccess config env w).
Proof.
  unfold breakerSuccess, sameRun.
  destruct (breakerOf config w) as [[c b]|].
  - destruct (attemptsFired_breaker_events c (wname config env) b (now w))
      as (_ & H & _).
    destruct (CircuitBreaker.onSuccess (wname config env) b) as [b' evs].
    simpl in *. rewrite attemptsFired_app, H. repeat split; lia.
  - repeat split; reflexivity.
Qed.

Lemma breakerFailure_sameRun w : sameRun w (breakerFailure config env w).
Proof.
  unfold breakerFailure, sameRun.
  destruct (breakerOf config w) as [[c b]|].
  - destruct (attemptsFired_breaker_events c (wname config env) b (now w))
      as (_ & _ & H).
    destruct (CircuitBreaker.onFailure c (wname config env) b (now w))
      as [b' evs].
    simpl in *. rewrite attemptsFired_app, H. repeat split; lia.
  - repeat split; reflexivity.
Qed.

(** *** The four ways out of one iteration of the loop *)

Lemma attempts_refused r a l w w0 :
  refused config env (fire [onAttempt (wname config env) a] w) = (true, w0) ->
  attempts config env (S r) a l w
  = (Rejected (CircuitOpenError (wname config env)), w0).
Proof. intros H. simpl. now rewrite H. Qed.

Lemma attempts_resolved r a l w w0 w1 v :
  refused config env (fire [onAttempt (wname config env) a] w) = (false, w0) ->
  attemptWork config env w0 = (Resolved v, w1) ->
  attempts config env (S r) a l w
  = (Resolved v,
     fire [onSuccess (wname config env) a (now w1 - now w0)]
       (breakerSuccess config env w1)).
Proof. intros H H1. simpl. now rewrite H, H1. Qed.

Lemma attempts_rejected_final r a l w w0 w1 e :
  refused config env (fire [onAttempt (wname config env) a] w) = (false, w0) ->
  attemptWork config env w0 = (Rejected e, w1) ->
  (a <=? wretries config) && wretryOn config e = false ->
  attempts config env (S r) a l w
  = (Rejected e,
     fire [onFailure (wname config env) a (now w1 - now w0) e]
       (breakerFailure config env w1)).
Proof. intros H H1 H2. simpl. now rewrite H, H1, H2. Qed.

Lemma attempts_rejected_retry r a l w w0 w1 e :
  refused config env (fire [onAttempt (wname config env) a] w) = (false, w0) ->
  attemptWork config env w0 = (Rejected e, w1) ->
  (a <=? wretries config) && wretryOn config e = true ->
  exists w2,
    sameRun' w1 w2
    /\ attempts config env (S r) a l w = attempts config env r (a + 1) e w2.
Proof.
  intros H H1 H2. simpl. rewrite H, H1, H2. simpl.
  eexists. split; [|reflexivity].
  destruct (breakerFailure_sameRun w1) as (Hn & Hs & Hk & Hc & Ht).
  unfold sameRun'.
  destruct (isPositive _); waited; simpl; rewrite ?attemptsFired_app; simpl;
    repeat split; try assumption;
    change (attemptsFired [onFailure _ _ _ _]) with 0%nat;
    change (attemptsFired [onRetry _ _ _ _]) with 0%nat; lia.
Qed.
End Orchestrator.

(** ** Attempt orchestrator *)

(** C4. When the breaker's [canAttempt] is false at an attempt, the call
    ends there with [CircuitOpenError], whatever the number of iterations
    left and whatever the retry predicate: the only thing that happened
    since the iteration began is its [onAttempt] hook, so the callable was
    not invoked, no failure was reported to the breaker, no backoff was
    computed and no time was spent waiting. *)
Theorem circuit_open_is_terminal :
  forall (config : ResilienceConfig) (env : Env) (remaining : nat)
         (attempt : Z) (lastErr : value) (w : World)
         (c : CircuitBreakerConfig) (b : CircuitBreaker.t),
    circuitBreaker config = Some c ->
    breaker w = Some b ->
    fst (fst (CircuitBreaker.canAttempt c (wname config env) b (now w))) = false ->
    let r := attempts config env (S remaining) attempt lastErr w in
    r = (Rejected (CircuitOpenError (wname config env)),
         fire [onAttempt (wname config env) attempt] w)
    /\ calls (snd r) = calls w
    /\ breaker (snd r) = Some b
    /\ now (snd r) = now w.
Proof.
  intros config env remaining attempt lastErr w c b Hc Hb Hno r.
  assert (E : r = (Rejected (CircuitOpenError (wname config env)),
                   fire [onAttempt (wname config env) attempt] w)).
  { apply attempts_refused. apply refused_true with (c := c) (b := b).
    - rewrite breakerOf_fire. unfold breakerOf. now rewrite Hc, Hb.
    - exact Hno. }
  rewrite E. simpl. auto.
Qed.

(** C4 on the second attempt of a call with three retries, 5 ms after the
    breaker opened for 10 ms. *)
Lemma circuit_open_is_terminal_witness :
  attempts Scenario.guarded Scenario.alwaysFails 3 2 (VError "boom")
    Scenario.openAt5
  = (Rejected (CircuitOpenError "f"), fire [onAttempt "f" 2] Scenario.openAt5).
Proof.
  apply (circuit_open_is_terminal Scenario.guarded Scenario.alwaysFails 2 2
           (VError "boom") Scenario.openAt5 Scenario.cb1
           {| CircuitBreaker.state := OPEN; CircuitBreaker.failures := 1;
              CircuitBreaker.openedAt := 0 |});
    reflexivity.
Defined.

Lemma iterations_succ (n : Z) :
  0 <= n -> Z.to_nat (n + 1) = S (Z.to_nat n).
Proof. intros H. rewrite Z2Nat.inj_add by lia. simpl. lia. Qed.

(** One iteration that ran the callable and ended the call. *)
Lemma last_iteration_counts config env a w w0 w1 o evs :
  refused config env (fire [onAttempt (wname config env) a] w) = (false, w0) ->
  attemptWork config env w0 = (o, w1) ->
  forall w2, sameRun w1 w2 ->
  attemptsFired evs = 0%nat ->
  calls (fire evs w2) = S (calls w)
  /\ attemptsFired (trace (fire evs w2)) = S (attemptsFired (trace w)).
Proof.
  intros Hr Hw w2 (_ & _ & _ & Hc & Ht) Hev.
  pose proof (refused_sameRun config env (fire [onAttempt (wname config env) a] w))
    as (_ & _ & _ & Hc0 & Ht0).
  rewrite Hr in Hc0, Ht0. simpl in Hc0, Ht0.
  pose proof (attemptWork_spec config env w0) as (_ & Hc1 & _ & _ & Ht1 & _).
  rewrite Hw in Hc1, Ht1. simpl in Hc1, Ht1.
  unfold fire at 1 2; cbn [calls trace].
  rewrite attemptsFired_app, Hev, Ht, Ht1, Ht0.
  unfold fire; cbn [trace]. rewrite attemptsFired_app.
  change (attemptsFired [onAttempt (wname config env) a]) with 1%nat.
  split; [congruence | lia].
Qed.

(** C9. Whatever the retry count, when the first attempt fails with an
    error that the retry predicate rejects, the call makes that one
    attempt only and rejects with the very same error value. *)
Theorem rejected_by_predicate_stops :
  forall (config : ResilienceConfig) (env : Env) (w w0 w1 : World) (e : value),
    0 <= wretries config ->
    refused config env (fire [onAttempt (wname config env) 1] w) = (false, w0) ->
    attemptWork config env w0 = (Rejected e, w1) ->
    wretryOn config e = false ->
    let r := call config env w in
    fst r = Rejected e
    /\ calls (snd r) = S (calls w)
    /\ attemptsFired (trace (snd r)) = S (attemptsFired (trace w)).
Proof.
  intros config env w w0 w1 e Hn Hr Hw Hp r. subst r. unfold call.
  rewrite iterations_succ by assumption.
  rewrite (attempts_rejected_final config env _ 1 _ w w0 w1 e Hr Hw)
    by (rewrite Hp; apply andb_false_r).
  split; [reflexivity|].
  apply (last_iteration_counts config env 1 w w0 w1 (Rejected e) _ Hr Hw).
  - apply breakerFailure_sameRun.
  - reflexivity.
Qed.

(** C9 for five retries, a predicate that rejects everything and a
    callable that throws ["boom"]. *)
Lemma rejected_by_predicate_stops_witness :
  fst (call Scenario.picky Scenario.alwaysFails world0) = Rejected (VError "boom")
  /\ calls (snd (call Scenario.picky Scenario.alwaysFails world0)) = 1%nat
  /\ attemptsFired (trace (snd (call Scenario.picky Scenario.alwaysFails world0)))
     = 1%nat.
Proof.
  eapply (rejected_by_predicate_stops Scenario.picky Scenario.alwaysFails world0);
    [ unfold wretries; simpl; lia | reflexivity | reflexivity | reflexivity ].
Defined.

(** ** Ambient cancellation slot *)

Section Slot.
Variable config : ResilienceConfig.
Variable env : Env.

Lemma runWithActiveSignal_restores signal body w :
  fst (runWithActiveSignal signal body w) = fst (body (set_activeSignal signal w))
  /\ (fst (runWithActiveSignal signal body w) <> Pending ->
      activeSignal (snd (runWithActiveSignal signal body w)) = activeSignal w).
Proof.
  unfold runWithActiveSignal.
  destruct (body (set_activeSignal signal w)) as [o w'].
  destruct o; simpl; split; try reflexivity; intros H; now try elim H.
Qed.

Lemma attempts_restore r :
  forall a l w,
    fst (attempts config env r a l w) <> Pending ->
    activeSignal (snd (attempts config env r a l w)) = activeSignal w.
Proof.
  induction r as [|r IH]; intros a l w H; [reflexivity|].
  simpl in H |- *.
  pose proof (refused_sameRun config env
                (fire [onAttempt (wname config env) a] w)) as (_ & Hs0 & _).
  destruct (refused config env (fire [onAttempt (wname config env) a] w))
    as [no w0]. simpl in Hs0.
  destruct no; [exact Hs0|].
  pose proof (attemptWork_spec config env w0) as (_ & _ & _ & _ & _ & Hs1).
  destruct (attemptWork config env w0) as [o w1]. simpl in Hs1.
  destruct o as [v | e |].
  - simpl. destruct (breakerSuccess_sameRun config env w1) as (_ & Hs & _).
    rewrite Hs, Hs1 by discriminate. exact Hs0.
  - destruct (breakerFailure_sameRun config env w1) as (_ & Hs & _).
    destruct (negb _).
    + simpl. rewrite Hs, Hs1 by discriminate. exact Hs0.
    + rewrite IH by exact H.
      destruct (isPositive _); waited; simpl; rewrite Hs, Hs1 by discriminate; exact Hs0.
  - now elim H.
Qed.
End Slot.

(** C7 (as amended). [runWithActiveSignal] runs its body with the slot set
    to the given signal and, once the body has settled in any way, puts
    back the value that it found. Every attempt does its work through it.
    With [useAbortSignal] the signal is that of a controller created for
    this attempt: it is none of the controllers created before, one more
    controller exists afterwards, and the next attempt gets another
    signal. Without it the slot is cleared. The callable is invoked under
    that slot, and the slot is as before when the attempt has settled by
    success, failure or timeout. When a call that no other call overlaps
    has resolved or rejected, the slot holds what it held before the call;
    so does the slot after a run of [runWithActiveSignal] that no other run
    interleaves with. *)
Theorem activeSignal_scoped :
  forall (config : ResilienceConfig) (env : Env) (w : World),
    (forall signal body,
        fst (runWithActiveSignal signal body w)
        = fst (body (set_activeSignal signal w))
        /\ (fst (runWithActiveSignal signal body w) <> Pending ->
            activeSignal (snd (runWithActiveSignal signal body w))
            = activeSignal w))
    /\ attemptWork config env w
       = runWithActiveSignal (attemptSignal config w)
           (invoke config env (attemptSignal config w))
           (if truthy (useAbortSignal config) then snd (newController w) else w)
    /\ (truthy (useAbortSignal config) = true ->
        attemptSignal config w = Some (fst (newController w))
        /\ (forall s, (s < controllers w)%nat -> attemptSignal config w <> Some s)
        /\ controllers (snd (attemptWork config env w)) = S (controllers w)
        /\ attemptSignal config (snd (attemptWork config env w))
           <> attemptSignal config w)
    /\ (truthy (useAbortSignal config) = false ->
        attemptSignal config w = None
        /\ controllers (snd (attemptWork config env w)) = controllers w)
    /\ fst (attemptWork config env w)
       = raced (timeoutMs config) (attemptSignal config w)
           (fn env (calls w) (attemptSignal config w))
           (onAbort env (calls w) (attemptSignal config w))
    /\ (fst (attemptWork config env w) <> Pending ->
        activeSignal (snd (attemptWork config env w)) = activeSignal w)
    /\ (fst (call config env w) <> Pending ->
        activeSignal (snd (call config env w)) = activeSignal w)
    /\ (forall s frame signal,
          current (schedule [Enter frame signal; Leave frame] s) = current s).
Proof.
  intros config env w.
  pose proof (attemptWork_spec config env w) as (Ho & _ & Hk & _ & _ & Hs).
  split; [|split; [|split; [|split; [|split; [|split; [|split]]]]]].
  - intros signal body. apply runWithActiveSignal_restores.
  - unfold attemptWork, attemptSignal, signalFor.
    destruct (truthy (useAbortSignal config)); reflexivity.
  - intros Hu. unfold attemptSignal, signalFor in *. rewrite Hk.
    unfold ctlStep. rewrite Hu. cbn [newController fst].
    split; [reflexivity|]. split; [|split].
    + intros s Hlt E. inversion E. lia.
    + lia.
    + intros E. inversion E. lia.
  - intros Hu. unfold attemptSignal, signalFor. rewrite Hk.
    unfold ctlStep. rewrite Hu. split; [reflexivity | lia].
  - exact Ho.
  - exact Hs.
  - apply attempts_restore.
  - intros s frame signal. unfold schedule, slotStep, savedBy.
    cbn [fold_left prev find fst]. rewrite Nat.eqb_refl. reflexivity.
Qed.

(** C7 for a call that times out while the caller's signal 7 is in the
    slot: the attempt runs under the signal of a new controller, number 8,
    and the slot holds 7 again afterwards. *)
Lemma activeSignal_scoped_witness :
  attemptSignal Scenario.timed Scenario.nested = Some 8%nat
  /\ controllers
       (snd (attemptWork Scenario.timed Scenario.neverSettles Scenario.nested))
     = 9%nat
  /\ activeSignal (snd (call Scenario.timed Scenario.neverSettles Scenario.nested))
     = Some 7%nat.
Proof.
  destruct (activeSignal_scoped Scenario.timed Scenario.neverSettles
              Scenario.nested) as (_ & _ & Hfresh & _ & _ & _ & Hcall & _).
  destruct (Hfresh eq_refl) as (Hsig & _ & Hctl & _).
  split; [exact Hsig|]. split; [exact Hctl|].
  apply Hcall. simpl. discriminate.
Defined.

(** C7 as stated fails for calls that overlap. Call A makes a first attempt
    (frame 0) and, while it is in flight, call B makes its only attempt
    (frame 1), saving A's signal; A's attempt settles and clears the slot,
    B's attempt settles and puts A's signal back, and A's second attempt
    (frame 2) saves and restores that. The slot was empty before either
    call, and holds the signal of A's first attempt when both have
    ended. *)
Lemma activeSignal_stale_after_overlap :
  let s0 := {| current := None; prev := [] |} in
  current (schedule Scenario.overlapping s0) = Some 0%nat
  /\ prev (schedule Scenario.overlapping s0) = []
  /\ current (schedule Scenario.overlapping s0) <> current s0.
Proof.
  split; [reflexivity|]. split; [reflexivity | discriminate].
Qed.

(** ** Retries without a breaker *)

Section Retries.
Variable config : ResilienceConfig.
Variable env : Env.
Hypothesis no_breaker : circuitBreaker config = None.

Lemma breakerOf_none w : breakerOf config w = None.
Proof. unfold breakerOf. now rewrite no_breaker. Qed.

Lemma not_refused a w :
  refused config env (fire [onAttempt (wname config env) a] w)
  = (false, fire [onAttempt (wname config env) a] w).
Proof. apply refused_none, breakerOf_none. Qed.

(** The attempt of an iteration that starts in [w]. *)
Lemma attemptWork_progress a w :
  let w0 := fire [onAttempt (wname config env) a] w in
  fst (attemptWork config env w0) = outcomeAt config env (calls w) (controllers w)
  /\ (fst (attemptWork config env w0) <> Pending ->
      forall w2, sameRun' (snd (attemptWork config env w0)) w2 ->
                 progress config 1 w w2).
Proof.
  intros w0.
  pose proof (attemptWork_spec config env w0) as (Ho & Hc & Hk & _ & Ht & Hs).
  split; [exact Ho|].
  intros Hp w2 (Hs2 & Hk2 & Hc2 & Ht2). specialize (Hs Hp).
  unfold progress. rewrite Hs2, Hk2, Hc2, Ht2, Hs, Hk, Hc, Ht.
  subst w0. unfold fire; cbn [calls controllers activeSignal trace].
  rewrite attemptsFired_app.
  change (attemptsFired [onAttempt (wname config env) a]) with 1%nat.
  repeat split; lia.
Qed.

Lemma sameRun_weaken w w' : sameRun w w' -> sameRun' w w'.
Proof. intros (_ & H); exact H. Qed.

Lemma sameRun'_fire w w' evs :
  sameRun' w w' -> attemptsFired evs = 0%nat -> sameRun' w (fire evs w').
Proof.
  intros (Hs & Hk & Hc & Ht) Hev. unfold sameRun', fire. simpl.
  rewrite attemptsFired_app, Hev, Ht. repeat split; auto.
Qed.

Lemma attempts_fail_step r a l w e :
  outcomeAt config env (calls w) (controllers w) = Rejected e ->
  (a <=? wretries config) && wretryOn config e = true ->
  exists w', progress config 1 w w'
             /\ attempts config env (S r) a l w
                = attempts config env r (a + 1) e w'.
Proof.
  intros Ho Hretry.
  destruct (attemptWork_progress a w) as (Ho1 & Hp).
  destruct (attemptWork config env (fire [onAttempt (wname config env) a] w))
    as [o w1] eqn:Hw.
  cbn [fst snd] in Ho1, Hp. rewrite Ho in Ho1. subst o.
  destruct (attempts_rejected_retry config env r a l w _ w1 e
              (not_refused a w) Hw Hretry) as (w2 & Hsame & E).
  exists w2. split; [|exact E]. apply Hp; [discriminate | exact Hsame].
Qed.

Lemma attempts_fail_last r a l w e :
  outcomeAt config env (calls w) (controllers w) = Rejected e ->
  (a <=? wretries config) && wretryOn config e = false ->
  exists w', progress config 1 w w'
             /\ attempts config env (S r) a l w = (Rejected e, w').
Proof.
  intros Ho Hretry.
  destruct (attemptWork_progress a w) as (Ho1 & Hp).
  destruct (attemptWork config env (fire [onAttempt (wname config env) a] w))
    as [o w1] eqn:Hw.
  cbn [fst snd] in Ho1, Hp. rewrite Ho in Ho1. subst o.
  eexists. split;
    [| apply (attempts_rejected_final config env r a l w _ w1 e
                (not_refused a w) Hw Hretry)].
  apply Hp; [discriminate|].
  apply sameRun'_fire; [|reflexivity].
  apply sameRun_weaken, breakerFailure_sameRun.
Qed.

Lemma attempts_success_step r a l w v :
  outcomeAt config env (calls w) (controllers w) = Resolved v ->
  exists w', progress config 1 w w'
             /\ attempts config env (S r) a l w = (Resolved v, w').
Proof.
  intros Ho.
  destruct (attemptWork_progress a w) as (Ho1 & Hp).
  destruct (attemptWork config env (fire [onAttempt (wname config env) a] w))
    as [o w1] eqn:Hw.
  cbn [fst snd] in Ho1, Hp. rewrite Ho in Ho1. subst o.
  eexists. split;
    [| apply (attempts_resolved config env r a l w _ w1 v
                (not_refused a w) Hw)].
  apply Hp; [discriminate|].
  apply sameRun'_fire; [|reflexivity].
  apply sameRun_weaken, breakerSuccess_sameRun.
Qed.

Lemma progress_trans m w w1 w2 :
  progress config 1 w w1 -> progress config m w1 w2 ->
  progress config (S m) w w2.
Proof.
  unfold progress. intros (Hc & Hk & Hs & Ht) (Hc' & Hk' & Hs' & Ht').
  rewrite Hc', Hk', Hs', Ht', Hc, Hk, Hs, Ht. simpl. repeat split; lia.
Qed.

(** [m] attempts in a row that fail and are retried. *)
Lemma attempts_failing_prefix m :
  forall r a l w,
    (forall j, (j < m)%nat ->
       exists e,
         outcomeAt config env (calls w + j) (controllers w + j * ctlStep config)
         = Rejected e
         /\ wretryOn config e = true) ->
    a + Z.of_nat m - 1 <= wretries config ->
    exists l' w',
      progress config m w w'
      /\ attempts config env (m + r) a l w
         = attempts config env r (a + Z.of_nat m) l' w'.
Proof.
  induction m as [|m IH]; intros r a l w Hfail Hle.
  - exists l, w. split.
    + unfold progress. repeat split; lia.
    + simpl. now rewrite Z.add_0_r.
  - destruct (Hfail 0%nat) as (e & Ho & Hp); [lia|].
    rewrite !Nat.add_0_r in Ho. simpl in Ho.
    assert (Hretry : (a <=? wretries config) && wretryOn config e = true).
    { rewrite Hp, andb_true_r. apply Z.leb_le. lia. }
    destruct (attempts_fail_step (m + r) a l w e Ho Hretry) as (w1 & P1 & E1).
    destruct (IH r (a + 1) e w1) as (l' & w2 & P2 & E2).
    + intros j Hj. destruct (Hfail (S j)) as (e' & Ho' & Hp'); [lia|].
      exists e'. split; [|exact Hp'].
      destruct P1 as (Hc & Hk & _).
      rewrite Hc, Hk.
      replace (calls w + 1 + j)%nat with (calls w + S j)%nat by lia.
      replace (controllers w + 1 * ctlStep config + j * ctlStep config)%nat
        with (controllers w + S j * ctlStep config)%nat by (simpl; lia).
      exact Ho'.
    + lia.
    + exists l', w2. split; [exact (progress_trans m w w1 w2 P1 P2)|].
      change (S m + r)%nat with (S (m + r)). rewrite E1, E2.
      f_equal. lia.
Qed.
End Retries.

Lemma always_rejected config env :
  (forall i s, exists e d, fn env i s = Throws e d) ->
  forall i c, exists e, outcomeAt config env i c = Rejected e.
Proof.
  intros Hfn i c. unfold outcomeAt.
  destruct (Hfn i (signalFor config c)) as (e & d & ->).
  apply raced_Throws.
Qed.

(** C1 (as amended). Without a circuit breaker and with a retry predicate
    that accepts every error, for every retry count [n >= 0] and every
    callable that fails at every invocation, the call invokes the callable
    [n + 1] times, in [n + 1] attempts, and rejects with the error of the
    last of them. *)
Theorem always_failing_exhausts_retries :
  forall (config : ResilienceConfig) (env : Env) (w : World),
    0 <= wretries config ->
    circuitBreaker config = None ->
    (forall e, wretryOn config e = true) ->
    (forall i s, exists e d, fn env i s = Throws e d) ->
    let n := Z.to_nat (wretries config) in
    let r := call config env w in
    exists e,
      fst r = Rejected e
      /\ outcomeAt config env (calls w + n) (controllers w + n * ctlStep config)
         = Rejected e
      /\ calls (snd r) = (calls w + (n + 1))%nat
      /\ attemptsFired (trace (snd r)) = (attemptsFired (trace w) + (n + 1))%nat.
Proof.
  intros config env w Hn Hnb Hp Hfn n r. subst r. unfold call.
  replace (Z.to_nat (wretries config + 1)) with (n + 1)%nat by (subst n; lia).
  destruct (attempts_failing_prefix config env Hnb n 1 1 VUndefined w)
    as (l' & w' & (Hc & Hk & Hs & Ht) & E).
  { intros j _.
    destruct (always_rejected config env Hfn (calls w + j)
                (controllers w + j * ctlStep config)) as (e & He).
    exists e. split; [exact He | apply Hp]. }
  { subst n. lia. }
  rewrite E.
  destruct (always_rejected config env Hfn (calls w') (controllers w'))
    as (e & He).
  destruct (attempts_fail_last config env Hnb 0 (1 + Z.of_nat n) l' w' e He)
    as (w'' & (Hc' & Hk' & Hs' & Ht') & E').
  { replace (1 + Z.of_nat n <=? wretries config) with false
      by (symmetry; apply Z.leb_gt; subst n; lia).
    reflexivity. }
  rewrite E'. exists e. cbn [fst snd].
  rewrite Hc, Hk in He. repeat split; try assumption; lia.
Qed.

(** C1 for three retries of a callable that always throws ["boom"]. *)
Lemma always_failing_exhausts_retries_witness :
  exists e,
    fst (call Scenario.plain3 Scenario.alwaysFails world0) = Rejected e
    /\ outcomeAt Scenario.plain3 Scenario.alwaysFails 3 0 = Rejected e
    /\ calls (snd (call Scenario.plain3 Scenario.alwaysFails world0)) = 4%nat
    /\ attemptsFired
         (trace (snd (call Scenario.plain3 Scenario.alwaysFails world0)))
       = 4%nat.
Proof.
  assert (Hn : 0 <= wretries Scenario.plain3) by (unfold wretries; simpl; lia).
  assert (Hfn : forall (i : nat) (s : option Signal),
             exists e d, fn Scenario.alwaysFails i s = Throws e d)
    by (intros i s; exists (VError "boom"), 5; reflexivity).
  exact (always_failing_exhausts_retries Scenario.plain3 Scenario.alwaysFails
           world0 Hn eq_refl (fun _ => eq_refl) Hfn).
Defined.

(** C1 as stated fails: with five retries and a predicate that rejects the
    error, or with three retries behind a breaker that opens at the first
    failure, a callable that always throws is invoked once. *)
Lemma always_failing_stops_early :
  (forall i s, exists e d, fn Scenario.alwaysFails i s = Throws e d)
  /\ wretries Scenario.picky = 5
  /\ calls (snd (call Scenario.picky Scenario.alwaysFails world0)) = 1%nat
  /\ wretries Scenario.guarded = 3
  /\ fst (call Scenario.guarded Scenario.alwaysFails
            (withResilience Scenario.guarded world0))
     = Rejected (CircuitOpenError "f")
  /\ calls (snd (call Scenario.guarded Scenario.alwaysFails
                   (withResilience Scenario.guarded world0))) = 1%nat.
Proof.
  split; [intros i s; exists (VError "boom"), 5; reflexivity|].
  vm_compute. repeat split.
Qed.

(** C2 (as amended). Without a circuit breaker, for every retry count [n]
    and every callable whose attempts 1 to [k - 1] fail with errors that
    the retry predicate accepts and whose attempt [k <= n + 1] succeeds,
    the call makes exactly [k] attempts and resolves with the value of
    attempt [k]. The theorem counts the failures, [m = k - 1]. *)
Theorem succeeds_on_attempt_k :
  forall (config : ResilienceConfig) (env : Env) (w : World) (m : nat)
         (v : value),
    circuitBreaker config = None ->
    Z.of_nat m + 1 <= wretries config + 1 ->
    (forall j, (j < m)%nat ->
       exists e,
         outcomeAt config env (calls w + j) (controllers w + j * ctlStep config)
         = Rejected e
         /\ wretryOn config e = true) ->
    outcomeAt config env (calls w + m) (controllers w + m * ctlStep config)
    = Resolved v ->
    let r := call config env w in
    fst r = Resolved v
    /\ calls (snd r) = (calls w + (m + 1))%nat
    /\ attemptsFired (trace (snd r)) = (attemptsFired (trace w) + (m + 1))%nat.
Proof.
  intros config env w m v Hnb Hk Hfail Hok r. subst r. unfold call.
  replace (Z.to_nat (wretries config + 1))
    with (m + S (Z.to_nat (wretries config) - m))%nat by lia.
  destruct (attempts_failing_prefix config env Hnb m
              (S (Z.to_nat (wretries config) - m)) 1 VUndefined w Hfail)
    as (l' & w' & (Hc & Hk' & Hs & Ht) & E); [lia|].
  rewrite E. rewrite <- Hc, <- Hk' in Hok.
  destruct (attempts_success_step config env Hnb
              (Z.to_nat (wretries config) - m) (1 + Z.of_nat m) l' w' v Hok)
    as (w'' & (Hc2 & _ & _ & Ht2) & E2).
  rewrite E2. cbn [fst snd]. repeat split; lia.
Qed.

(** C2 for three retries of a callable that throws once and then returns
    42: two attempts. *)
Lemma succeeds_on_attempt_k_witness :
  fst (call Scenario.plain3 Scenario.failsOnce world0) = Resolved (VNum 42)
  /\ calls (snd (call Scenario.plain3 Scenario.failsOnce world0)) = 2%nat
  /\ attemptsFired (trace (snd (call Scenario.plain3 Scenario.failsOnce world0)))
     = 2%nat.
Proof.
  assert (Hk : Z.of_nat 1 + 1 <= wretries Scenario.plain3 + 1)
    by (unfold wretries; simpl; lia).
  assert (Hfail : forall j, (j < 1)%nat ->
            exists e,
              outcomeAt Scenario.plain3 Scenario.failsOnce
                (calls world0 + j) (controllers world0 + j * ctlStep Scenario.plain3)
              = Rejected e
              /\ wretryOn Scenario.plain3 e = true).
  { intros j Hj. exists (VError "boom"). destruct j; [|lia].
    split; reflexivity. }
  exact (succeeds_on_attempt_k Scenario.plain3 Scenario.failsOnce world0 1
           (VNum 42) eq_refl Hk Hfail eq_refl).
Defined.

(** C2 as stated fails behind a breaker: the callable throws at its first
    invocation, with an error that the predicate accepts, and would return
    42 at its second, which is within the three retries; the breaker,
    opened by the first failure, refuses the second attempt and the call
    rejects after one invocation. *)
Lemma success_unreached_behind_breaker :
  (forall s, fn Scenario.failsOnce 0 s = Throws (VError "boom") 5)
  /\ wretryOn Scenario.guarded (VError "boom") = true
  /\ (forall s, fn Scenario.failsOnce 1 s = Returns (VNum 42) 5)
  /\ 2 <= wretries Scenario.guarded + 1
  /\ fst (call Scenario.guarded Scenario.failsOnce
            (withResilience Scenario.guarded world0))
     = Rejected (CircuitOpenError "f")
  /\ calls (snd (call Scenario.guarded Scenario.failsOnce
                   (withResilience Scenario.guarded world0))) = 1%nat.
Proof.
  split; [reflexivity|]. split; [reflexivity|]. split; [reflexivity|].
  split; [unfold wretries; simpl; lia|].
  vm_compute. split; reflexivity.
Qed.

(** * Further properties *)

(** ** Circuit breaker *)

Module BreakerMore.
Import CircuitBreaker.

Section Counting.
Variable cfg : CircuitBreakerConfig.
Variable name : string.
Hypothesis threshold_pos : 1 <= failureThreshold cfg.

Lemma counted_reachable b : reachable cfg name b -> counted cfg b.
Proof.
  induction 1 as [| b now Hr [Hn Hc] | b Hr [Hn Hc] | b now Hr [Hn Hc]];
    unfold counted.
  - simpl. split; [lia | intros _; lia].
  - unfold canAttempt. destruct (state b) eqn:Es; simpl.
    + rewrite Es. auto.
    + destruct (resetTimeoutMs cfg <=? now - openedAt b); simpl;
        (split; [assumption|]); [discriminate | rewrite Es; discriminate].
    + rewrite Es. split; [assumption | discriminate].
  - simpl. split; [lia | intros _; lia].
  - unfold onFailure.
    destruct (failureThreshold cfg <=? failures b + 1) eqn:E; simpl.
    + split; [lia | discriminate].
    + apply Z.leb_gt in E. split; [lia | intros _; lia].
Qed.
End Counting.
End BreakerMore.

(** X1. For a breaker with [failureThreshold >= 1], in every state that
    the three methods can reach, the failure count is not negative and the
    breaker is CLOSED exactly when the count is below the threshold. *)
Theorem breaker_closed_iff_below_threshold :
  forall (cfg : CircuitBreakerConfig) (name : string) (b : CircuitBreaker.t),
    1 <= failureThreshold cfg ->
    CircuitBreaker.reachable cfg name b ->
    0 <= CircuitBreaker.failures b
    /\ (CircuitBreaker.state b = CLOSED
        <-> CircuitBreaker.failures b < failureThreshold cfg).
Proof.
  intros cfg name b Hpos Hr.
  destruct (BreakerMore.counted_reachable cfg name Hpos b Hr) as [Hn Hc].
  pose proof (BreakerFacts.reachable_tripped cfg name b Hr) as Ht.
  split; [exact Hn|]. split; [exact Hc|].
  intros Hlt. destruct (CircuitBreaker.state b) eqn:Es; [reflexivity | |];
    unfold CircuitBreaker.tripped in Ht; rewrite Es in Ht;
    (assert (failureThreshold cfg <= CircuitBreaker.failures b)
      by (apply Ht; discriminate)); lia.
Qed.

(** X1 at a breaker of threshold 1 left half-open after one failure. *)
Lemma breaker_closed_iff_below_threshold_witness :
  0 <= CircuitBreaker.failures Scenario.halfOpen1
  /\ (CircuitBreaker.state Scenario.halfOpen1 = CLOSED
      <-> CircuitBreaker.failures Scenario.halfOpen1 < 1).
Proof.
  assert (Hr : CircuitBreaker.reachable Scenario.cb1 "f" Scenario.halfOpen1).
  { unfold Scenario.halfOpen1.
    apply CircuitBreaker.reach_canAttempt, CircuitBreaker.reach_onFailure,
      CircuitBreaker.reach_new. }
  assert (Ht : 1 <= failureThreshold Scenario.cb1) by (simpl; lia).
  exact (breaker_closed_iff_below_threshold Scenario.cb1 "f"
           Scenario.halfOpen1 Ht Hr).
Defined.

(** X2. [canAttempt] never touches the failure count or the opening time,
    and asking again at the same instant gives the same answer, changes
    nothing more and fires no hook. *)
Theorem canAttempt_settled :
  forall (cfg : CircuitBreakerConfig) (name : string) (b : CircuitBreaker.t)
         (now : Z),
    let r := CircuitBreaker.canAttempt cfg name b now in
    CircuitBreaker.failures (snd (fst r)) = CircuitBreaker.failures b
    /\ CircuitBreaker.openedAt (snd (fst r)) = CircuitBreaker.openedAt b
    /\ CircuitBreaker.canAttempt cfg name (snd (fst r)) now
       = (fst (fst r), snd (fst r), []).
Proof.
  intros cfg name b now. unfold CircuitBreaker.canAttempt.
  destruct b as [st f o]. destruct st; simpl; try (repeat split; reflexivity).
  destruct (resetTimeoutMs cfg <=? now - o) eqn:E; simpl;
    rewrite ?E; repeat split; reflexivity.
Qed.

(** X3. Waiting never turns a permission into a refusal: if [canAttempt]
    is true at some time, it is true at every later time for the same
    breaker. *)
Theorem canAttempt_monotone :
  forall (cfg : CircuitBreakerConfig) (name : string) (b : CircuitBreaker.t)
         (t t' : Z),
    t <= t' ->
    fst (fst (CircuitBreaker.canAttempt cfg name b t)) = true ->
    fst (fst (CircuitBreaker.canAttempt cfg name b t')) = true.
Proof.
  intros cfg name b t t' Hle. unfold CircuitBreaker.canAttempt.
  destruct (CircuitBreaker.state b); simpl; auto.
  destruct (resetTimeoutMs cfg <=? t - CircuitBreaker.openedAt b) eqn:E;
    simpl; [|discriminate].
  intros _. apply Z.leb_le in E.
  replace (resetTimeoutMs cfg <=? t' - CircuitBreaker.openedAt b) with true
    by (symmetry; apply Z.leb_le; lia).
  reflexivity.
Qed.

(** X3 for the breaker [cb1] opened at time 0, probed at 10 and at 25. *)
Lemma canAttempt_monotone_witness :
  fst (fst (CircuitBreaker.canAttempt Scenario.cb1 "f"
              {| CircuitBreaker.state := OPEN; CircuitBreaker.failures := 1;
                 CircuitBreaker.openedAt := 0 |} 25)) = true.
Proof.
  apply (canAttempt_monotone Scenario.cb1 "f" _ 10 25); [lia | reflexivity].
Defined.

(** ** Backoff calculator *)

Lemma cappedDelay_bounds (b m a : Z) :
  0 <= b -> 0 <= m -> 0 <= cappedDelay b m a <= m.
Proof.
  intros Hb Hm. unfold cappedDelay, pow2.
  assert (0 <= 2 ^ Z.max 0 (a - 1)) by (apply Z.pow_nonneg; lia).
  assert (0 <= b * 2 ^ Z.max 0 (a - 1)) by (apply Z.mul_nonneg_nonneg; lia).
  lia.
Qed.

Lemma rawInRange_nonneg (b a : Z) :
  0 <= b -> 0 < b \/ a <= 1024 -> rawInRange b a.
Proof.
  intros Hb [H | H]; [now left|]. right. split; [exact H|].
  pose proof DOUBLE_LIMIT_pos.
  assert (0 <= 2 ^ (Z.max 1 a - 1)) by (apply Z.pow_nonneg; lia).
  nia.
Qed.

(** X4. With a base delay that is not negative and a cap that is a
    double and not negative, the exponential backoff is a number that is
    never negative and never above [maxDelayMs], without jitter and with
    it (for a draw that is a double in [0,1)), at every attempt index but
    those that make the product 0 times infinity: a base delay of 0 at an
    attempt above 1024. *)
Theorem backoff_within_cap :
  forall (baseDelayMs maxDelayMs attempt : Z) (jitter : option bool)
         (rnd : Draw),
    0 <= baseDelayMs -> 0 <= maxDelayMs < DOUBLE_LIMIT ->
    0 < baseDelayMs \/ attempt <= 1024 ->
    isDraw rnd ->
    exists z,
      computeBackoffMs (Some (Exponential baseDelayMs maxDelayMs jitter))
        attempt rnd = Num z
      /\ 0 <= z <= maxDelayMs.
Proof.
  intros b m a j r Hb Hm Ha Hr.
  pose proof (cappedDelay_bounds b m a Hb (proj1 Hm)) as Hc.
  unfold computeBackoffMs.
  rewrite (capped_exact b m a (proj2 Hm) (rawInRange_nonneg b a Hb Ha)).
  destruct (negb (truthy j)); [now exists (cappedDelay b m a)|].
  cbn [jittered]. eexists. split; [reflexivity|].
  destruct (Z.eq_dec (cappedDelay b m a) 0) as [E | E].
  - rewrite E, floorTimes_zero. lia.
  - pose proof (floorTimes_range r (cappedDelay b m a) Hr). lia.
Qed.

(** X4 at base 50, cap 400, attempt 9, jitter on and a draw of 3/4. *)
Lemma backoff_within_cap_witness :
  exists z,
    computeBackoffMs (Some (Exponential 50 400 (Some true))) 9
      {| mantissa := 3 * 2 ^ 51; scale := 53 |} = Num z
    /\ 0 <= z <= 400.
Proof.
  assert (Hb : 0 <= 50) by lia.
  assert (Hm : 0 <= 400 < DOUBLE_LIMIT) by (split; [lia | reflexivity]).
  assert (Ha : 0 < 50 \/ 9 <= 1024) by (left; lia).
  assert (Hd : isDraw {| mantissa := 3 * 2 ^ 51; scale := 53 |})
    by (unfold isDraw; simpl; lia).
  exact (backoff_within_cap 50 400 9 (Some true)
           {| mantissa := 3 * 2 ^ 51; scale := 53 |} Hb Hm Ha Hd).
Defined.

(** X5. Without jitter, with a base delay that is not negative and a cap
    that is a double, the exponential backoff never decreases from one
    attempt to a later one, as long as the later one does not make the
    product 0 times infinity. *)
Theorem backoff_monotone :
  forall (baseDelayMs maxDelayMs a a' : Z) (jitter : option bool)
         (r r' : Draw),
    0 <= baseDelayMs -> maxDelayMs < DOUBLE_LIMIT ->
    truthy jitter = false -> a <= a' ->
    0 < baseDelayMs \/ a' <= 1024 ->
    exists z z',
      computeBackoffMs (Some (Exponential baseDelayMs maxDelayMs jitter)) a r
      = Num z
      /\ computeBackoffMs (Some (Exponential baseDelayMs maxDelayMs jitter)) a' r'
         = Num z'
      /\ z <= z'.
Proof.
  intros b m a a' j r r' Hb Hm Hj Hle Hin. unfold computeBackoffMs.
  rewrite Hj. cbn [negb].
  rewrite (capped_exact b m a Hm) by (apply rawInRange_nonneg; [lia|]; lia).
  rewrite (capped_exact b m a' Hm) by (apply rawInRange_nonneg; [lia|]; lia).
  exists (cappedDelay b m a), (cappedDelay b m a').
  split; [reflexivity|]. split; [reflexivity|].
  unfold cappedDelay, pow2.
  apply Z.min_le_compat_r. apply Z.mul_le_mono_nonneg_l; [assumption|].
  apply Z.pow_le_mono_r; lia.
Qed.

(** X5 between attempts 2 and 3 of [Exponential {50, 400}]. *)
Lemma backoff_monotone_witness :
  exists z z',
    computeBackoffMs (Some (Exponential 50 400 None)) 2 zeroDraw = Num z
    /\ computeBackoffMs (Some (Exponential 50 400 None)) 3 zeroDraw = Num z'
    /\ z <= z'.
Proof.
  assert (Hb : 0 <= 50) by lia.
  assert (Hm : 400 < DOUBLE_LIMIT) by reflexivity.
  assert (Hle : 2 <= 3) by lia.
  assert (Hin : 0 < 50 \/ 3 <= 1024) by (left; lia).
  exact (backoff_monotone 50 400 2 3 None zeroDraw zeroDraw Hb Hm eq_refl
           Hle Hin).
Defined.

(** ** Timeout controller *)

(** X6. Under a positive [timeoutMs] the race always settles, even for an
    operation that never does, and at most [timeoutMs] after it began,
    whatever the operation does when the controller is aborted; it does not
    move the clock back when the operation's duration is not negative. *)
Theorem withTimeout_settles_in_time :
  forall (p : Behaviour) (reaction : option value) (ms : Z)
         (controller : option Signal) (w : World),
    0 < ms ->
    let r := withTimeout p reaction (Some ms) controller w in
    fst r <> Pending
    /\ now (snd r) <= now w + ms
    /\ (match settlesAfter p with Some d => 0 <= d | None => True end ->
        now w <= now (snd r)).
Proof.
  intros p reaction ms c w Hms. unfold withTimeout, timerFires.
  rewrite (noTimeout_positive ms Hms).
  destruct (setTimeoutDelay_bounds ms) as (_ & Ht). specialize (Ht Hms).
  set (t := setTimeoutDelay ms) in *.
  destruct p as [v d | e d |]; cbn [settlesAfter];
    try (destruct (d <=? t) eqn:E; [apply Z.leb_le in E|]);
    cbn [fst snd await];
    (split; [destruct c, reaction; discriminate|]);
    destruct c; cbn [armTimer abort advance now]; split; intros; lia.
Qed.

(** X6 for an operation that never settles and a timeout of 50 ms. *)
Lemma withTimeout_settles_in_time_witness :
  fst (withTimeout Hangs None (Some 50) None world0) <> Pending
  /\ now (snd (withTimeout Hangs None (Some 50) None world0)) <= now world0 + 50
  /\ (True ->
      now world0 <= now (snd (withTimeout Hangs None (Some 50) None world0))).
Proof.
  assert (H : 0 < 50) by lia.
  exact (withTimeout_settles_in_time Hangs None 50 None world0 H).
Defined.

(** X22. The timeout controller with [timeoutMs] unset or zero is the
    operation itself. With a positive [timeoutMs], when the timer is due
    before the operation settles, the race ends when the timer is due, the
    controller, if there is one, is aborted, and the race rejects with
    [TimeoutError] unless the abort itself rejected the operation, whose
    error it then is; when the operation settles before the timer is due,
    the outcome is the operation's, and the timer, which is not cleared,
    stays armed against the controller. *)
Theorem withTimeout_race :
  forall (p : Behaviour) (reaction : option value)
         (controller : option Signal) (w : World),
    withTimeout p reaction None controller w = await p w
    /\ withTimeout p reaction (Some 0) controller w = await p w
    /\ forall ms,
         0 < ms ->
         (match settlesAfter p with
          | Some d => setTimeoutDelay ms < d
          | None => True
          end ->
          let r := withTimeout p reaction (Some ms) controller w in
          now (snd r) = now w + setTimeoutDelay ms
          /\ (forall s, controller = Some s -> isAborted s (snd r) = true)
          /\ (controller = None \/ reaction = None ->
              fst r = Rejected TimeoutError)
          /\ (forall s e,
                controller = Some s -> reaction = Some e ->
                fst r = Rejected e))
         /\ (forall d,
               settlesAfter p = Some d -> d < setTimeoutDelay ms ->
               withTimeout p reaction (Some ms) controller w
               = (fst (await p w),
                  armTimer (now w + setTimeoutDelay ms) controller
                    (snd (await p w)))).
Proof.
  intros p reaction controller w.
  split; [reflexivity|]. split; [reflexivity|].
  intros ms Hms. split.
  - intros Hfirst r. subst r.
    rewrite (withTimeout_timer_first p reaction ms controller w Hms Hfirst).
    unfold timerFires. cbn [fst snd].
    split; [destruct controller; reflexivity|].
    split; [|split].
    + intros s ->. unfold isAborted, abort. cbn [aborted existsb].
      now rewrite Nat.eqb_refl.
    + intros [-> | ->]; [reflexivity | now destruct controller].
    + intros s e -> ->. reflexivity.
  - intros d Hd Hlt.
    apply (withTimeout_promise_first p reaction ms controller w d Hms Hd).
    lia.
Qed.

(** X22 for an operation that never settles, a timeout of 50 ms and
    controller 0. *)
Lemma withTimeout_race_witness :
  now (snd (withTimeout Hangs None (Some 50) (Some 0%nat) world0)) = 50
  /\ isAborted 0%nat (snd (withTimeout Hangs None (Some 50) (Some 0%nat) world0))
     = true
  /\ fst (withTimeout Hangs None (Some 50) (Some 0%nat) world0)
     = Rejected TimeoutError.
Proof.
  destruct (withTimeout_race Hangs None (Some 0%nat) world0) as (_ & _ & H).
  assert (Hms : 0 < 50) by lia.
  destruct (H 50 Hms) as [Hfire _].
  destruct (Hfire I) as (Hnow & Hab & Hto & _).
  split; [exact Hnow|]. split; [exact (Hab 0%nat eq_refl)|].
  apply Hto. right. reflexivity.
Defined.



(** ** Cancellable sleep and fetch *)



(** X8. [resilientFetch] hands [fetch] the input as it is; the signal it
    passes is the one of [init] when there is one and the ambient signal
    otherwise; the other fields of [init] are passed as they are; and when
    neither signal exists, [init] itself is passed, missing or not. *)
Theorem resilientFetch_signal :
  forall (input : string) (init : option RequestInit) (w : World),
    let r := resilientFetch input init w in
    fst r = input
    /\ signalOf (snd r)
       = match signalOf init with Some s => Some s | None => activeSignal w end
    /\ restOf (snd r) = restOf init
    /\ (signalOf init = None -> activeSignal w = None -> snd r = init).
Proof.
  intros input init w. unfold resilientFetch, signalOf, restOf.
  destruct init as [[[s|] rest]|]; simpl;
    try destruct (activeSignal w); simpl; repeat split;
    try reflexivity; try discriminate.
Qed.

(** X8 with no [init] and an empty slot. *)
Lemma resilientFetch_signal_witness :
  snd (resilientFetch "https://example.org" None world0) = None.
Proof.
  apply (resilientFetch_signal "https://example.org" None world0); reflexivity.
Defined.

(** ** Attempt orchestrator: every call *)

(** The five ways through one iteration of the loop: refused, resolved,
    rejected for good, rejected and retried, never settled. *)
Ltac iteration config env a w no w0 Hr o w1 Hw Hsr :=
  simpl;
  destruct (refused config env (fire [onAttempt (wname config env) a] w))
    as [no w0] eqn:Hr;
  destruct no;
  [ | destruct (attemptWork config env w0) as [o w1] eqn:Hw;
      destruct o as [? | ? | ];
      [ | match goal with
          | |- context [negb ((a <=? wretries config) && wretryOn config ?e)] =>
              destruct (negb ((a <=? wretries config) && wretryOn config e))
                eqn:Hsr
          end
        | ] ].

Section EveryCall.
Variable config : ResilienceConfig.
Variable env : Env.

Lemma refused_calls a w no w0 :
  refused config env (fire [onAttempt (wname config env) a] w) = (no, w0) ->
  calls w0 = calls w
  /\ controllers w0 = controllers w
  /\ attemptsFired (trace w0) = S (attemptsFired (trace w)).
Proof.
  intros Hr.
  pose proof (refused_sameRun config env
                (fire [onAttempt (wname config env) a] w)) as (_ & _ & Hk & Hc & Ht).
  rewrite Hr in Hk, Hc, Ht. cbn [snd] in Hk, Hc, Ht.
  rewrite Hk, Hc, Ht. unfold fire; cbn [calls controllers trace].
  rewrite attemptsFired_app.
  change (attemptsFired [onAttempt (wname config env) a]) with 1%nat.
  repeat split; lia.
Qed.

Lemma attemptWork_calls w0 o w1 :
  attemptWork config env w0 = (o, w1) ->
  calls w1 = S (calls w0) /\ trace w1 = trace w0 /\ breaker w1 = breaker w0
  /\ o = outcomeAt config env (calls w0) (controllers w0).
Proof.
  intros Hw.
  pose proof (attemptWork_spec config env w0) as (Ho & Hc & _ & Hb & Ht & _).
  rewrite Hw in Ho, Hc, Hb, Ht. auto.
Qed.

Lemma attempts_bounds r :
  forall a l w,
    exists k j,
      calls (snd (attempts config env r a l w)) = (calls w + k)%nat
      /\ attemptsFired (trace (snd (attempts config env r a l w)))
         = (attemptsFired (trace w) + j)%nat
      /\ (k <= j <= r)%nat.
Proof.
  induction r as [|r IH]; intros a l w.
  - exists 0%nat, 0%nat. simpl. repeat split; lia.
  - iteration config env a w no w0 Hr o w1 Hw Hsr;
      destruct (refused_calls a w _ w0 Hr) as (Hc0 & _ & Ht0);
      try destruct (attemptWork_calls w0 _ w1 Hw) as (Hc1 & Ht1 & _).
    + exists 0%nat, 1%nat. cbn [snd]. repeat split; lia.
    + destruct (breakerSuccess_sameRun config env w1) as (_ & _ & _ & Hc & Ht).
      exists 1%nat, 1%nat. cbn [snd fire calls trace].
      rewrite attemptsFired_app, Hc, Ht, Hc1, Ht1, Hc0, Ht0.
      change (attemptsFired [onSuccess _ _ _]) with 0%nat.
      repeat split; lia.
    + destruct (breakerFailure_sameRun config env w1) as (_ & _ & _ & Hc & Ht).
      exists 1%nat, 1%nat. cbn [snd fire calls trace].
      rewrite attemptsFired_app, Hc, Ht, Hc1, Ht1, Hc0, Ht0.
      change (attemptsFired [onFailure _ _ _ _]) with 0%nat.
      repeat split; lia.
    + destruct (breakerFailure_sameRun config env w1) as (_ & _ & _ & Hc & Ht).
      match goal with |- context [attempts config env r (a + 1) ?e ?w2] =>
        destruct (IH (a + 1) e w2) as (k & j & Hk & Hj & Hkj);
        assert (Hc2 : calls w2 = calls w1)
          by (destruct (isPositive _); waited; simpl; exact Hc);
        assert (Ht2 : attemptsFired (trace w2) = attemptsFired (trace w1))
          by (destruct (isPositive _); waited; simpl; rewrite !attemptsFired_app, Ht;
              change (attemptsFired [onFailure _ _ _ _]) with 0%nat;
              change (attemptsFired [onRetry _ _ _ _]) with 0%nat; lia)
      end.
      exists (S k), (S j). rewrite Hk, Hj, Hc2, Ht2, Hc1, Ht1, Hc0, Ht0.
      repeat split; lia.
    + exists 1%nat, 1%nat. cbn [snd]. rewrite Hc1, Ht1, Hc0, Ht0.
      repeat split; lia.
Qed.
End EveryCall.

(** X9. With a negative retry count the loop body never runs: the call
    rejects with [UnknownError], the callable is not invoked, no hook
    fires and nothing changes. *)
Theorem negative_retries_unknown_error :
  forall (config : ResilienceConfig) (env : Env) (w : World),
    wretries config < 0 ->
    call config env w = (Rejected UnknownError, w).
Proof.
  intros config env w Hn. unfold call.
  replace (Z.to_nat (wretries config + 1)) with 0%nat by lia.
  reflexivity.
Qed.

(** X10. Whatever the configuration, the callable and the breaker, one call
    fires [onAttempt] at most [retries + 1] times, and invokes the callable
    at most as often as it fires [onAttempt]. *)
Theorem attempts_bounded_by_retries :
  forall (config : ResilienceConfig) (env : Env) (w : World),
    exists k j,
      calls (snd (call config env w)) = (calls w + k)%nat
      /\ attemptsFired (trace (snd (call config env w)))
         = (attemptsFired (trace w) + j)%nat
      /\ (k <= j <= Z.to_nat (wretries config + 1))%nat.
Proof. intros config env w. apply attempts_bounds. Qed.

(** X9 for [retries: -1]. *)
Lemma negative_retries_unknown_error_witness :
  call Scenario.negative Scenario.alwaysFails world0
  = (Rejected UnknownError, world0).
Proof.
  apply (negative_retries_unknown_error Scenario.negative Scenario.alwaysFails
           world0).
  unfold wretries; simpl; lia.
Defined.

(** ** The breaker of a wrapped function *)

Section Guarded.
Variable config : ResilienceConfig.
Variable env : Env.
Variable c : CircuitBreakerConfig.
Hypothesis has_breaker : circuitBreaker config = Some c.

Lemma breakerOf_some w b : breaker w = Some b -> breakerOf config w = Some (c, b).
Proof. unfold breakerOf. rewrite has_breaker. now intros ->. Qed.

Lemma refused_breaker a w b no w0 :
  breaker w = Some b ->
  refused config env (fire [onAttempt (wname config env) a] w) = (no, w0) ->
  breaker w0
  = Some (snd (fst (CircuitBreaker.canAttempt c (wname config env) b (now w)))).
Proof.
  intros Hb. unfold refused.
  rewrite breakerOf_fire, (breakerOf_some w b Hb). cbn [now fire].
  destruct (CircuitBreaker.canAttempt c (wname config env) b (now w))
    as [[ok b'] evs].
  intros H. inversion H. reflexivity.
Qed.

Lemma breakerSuccess_breaker w b :
  breaker w = Some b ->
  breaker (breakerSuccess config env w)
  = Some (fst (CircuitBreaker.onSuccess (wname config env) b)).
Proof.
  intros Hb. unfold breakerSuccess. rewrite (breakerOf_some w b Hb).
  reflexivity.
Qed.

Lemma breakerFailure_breaker w b :
  breaker w = Some b ->
  breaker (breakerFailure config env w)
  = Some (fst (CircuitBreaker.onFailure c (wname config env) b (now w))).
Proof.
  intros Hb. unfold breakerFailure. rewrite (breakerOf_some w b Hb).
  destruct (CircuitBreaker.onFailure c (wname config env) b (now w)).
  reflexivity.
Qed.

(** A property of breakers that the three methods keep is kept by the
    loop. *)
Lemma attempts_breaker_invariant (P : CircuitBreaker.t -> Prop) :
  (forall b t, P b ->
     P (snd (fst (CircuitBreaker.canAttempt c (wname config env) b t)))) ->
  (forall b, P b -> P (fst (CircuitBreaker.onSuccess (wname config env) b))) ->
  (forall b t, P b ->
     P (fst (CircuitBreaker.onFailure c (wname config env) b t))) ->
  forall r a l w b,
    breaker w = Some b -> P b ->
    exists b', breaker (snd (attempts config env r a l w)) = Some b' /\ P b'.
Proof.
  intros Pc Ps Pf. induction r as [|r IH]; intros a l w b Hb HP.
  - exists b. auto.
  - iteration config env a w no w0 Hr o w1 Hw Hsr;
      pose proof (refused_breaker a w b _ w0 Hb Hr) as Hb0;
      try (destruct (attemptWork_calls config env w0 _ w1 Hw)
             as (_ & _ & Hb1 & _); rewrite Hb0 in Hb1).
    + eexists. split; [exact Hb0 | auto].
    + eexists. cbn [snd fire breaker]. split;
        [apply (breakerSuccess_breaker w1 _ Hb1) | auto].
    + eexists. cbn [snd fire breaker]. split;
        [apply (breakerFailure_breaker w1 _ Hb1) | auto].
    + match goal with |- context [attempts config env r (a + 1) ?e ?w2] =>
        apply (IH (a + 1) e w2
                 (fst (CircuitBreaker.onFailure c (wname config env)
                         (snd (fst (CircuitBreaker.canAttempt c
                                      (wname config env) b (now w))))
                         (now w1))))
      end; [|auto].
      destruct (isPositive _); waited; cbn [advance fire breaker];
        apply (breakerFailure_breaker w1 _ Hb1).
    + eexists. split; [exact Hb1 | auto].
Qed.
End Guarded.

(** X13. A call keeps the breaker among the states that [canAttempt],
    [onSuccess] and [onFailure] reach from a new breaker; the breaker that
    [withResilience] creates is the new one. So the relations between state
    and failure count that hold for reachable states hold between any two
    calls of a wrapped function. *)
Theorem call_keeps_breaker_reachable :
  forall (config : ResilienceConfig) (env : Env) (c : CircuitBreakerConfig)
         (w : World) (b : CircuitBreaker.t),
    circuitBreaker config = Some c ->
    breaker (withResilience config w) = Some CircuitBreaker.new
    /\ (breaker w = Some b ->
        CircuitBreaker.reachable c (wname config env) b ->
        exists b',
          breaker (snd (call config env w)) = Some b'
          /\ CircuitBreaker.reachable c (wname config env) b').
Proof.
  intros config env c w b Hc. split.
  - unfold withResilience. now rewrite Hc.
  - intros Hb Hr. unfold call.
    apply (attempts_breaker_invariant config env c Hc
             (CircuitBreaker.reachable c (wname config env)))
      with (b := b); auto.
    + intros; now apply CircuitBreaker.reach_canAttempt.
    + intros; now apply CircuitBreaker.reach_onSuccess.
    + intros; now apply CircuitBreaker.reach_onFailure.
Qed.

(** X13 for the first call of a function wrapped with the breaker [cb3]. *)
Lemma call_keeps_breaker_reachable_witness :
  exists b',
    breaker (snd (call Scenario.protected Scenario.failsThrice
                    (withResilience Scenario.protected world0))) = Some b'
    /\ CircuitBreaker.reachable Scenario.cb3 "f" b'.
Proof.
  destruct (call_keeps_breaker_reachable Scenario.protected Scenario.failsThrice
              Scenario.cb3 (withResilience Scenario.protected world0)
              CircuitBreaker.new eq_refl) as [_ H].
  apply H; [reflexivity | apply CircuitBreaker.reach_new].
Defined.

Lemma canAttempt_failures c n b t :
  CircuitBreaker.failures (snd (fst (CircuitBreaker.canAttempt c n b t)))
  = CircuitBreaker.failures b.
Proof.
  unfold CircuitBreaker.canAttempt.
  destruct (CircuitBreaker.state b); simpl; try reflexivity;
    destruct (resetTimeoutMs c <=? t - CircuitBreaker.openedAt b); reflexivity.
Qed.

Lemma onFailure_failures c n b t :
  CircuitBreaker.failures (fst (CircuitBreaker.onFailure c n b t))
  = CircuitBreaker.failures b + 1.
Proof.
  unfold CircuitBreaker.onFailure.
  destruct (failureThreshold c <=? CircuitBreaker.failures b + 1); reflexivity.
Qed.

Section Accounting.
Variable config : ResilienceConfig.
Variable env : Env.
Variable c : CircuitBreakerConfig.
Hypothesis has_breaker : circuitBreaker config = Some c.

Lemma attempts_account r :
  forall a l w b,
    breaker w = Some b ->
    exists b' k,
      breaker (snd (attempts config env r a l w)) = Some b'
      /\ calls (snd (attempts config env r a l w)) = (calls w + k)%nat
      /\ match fst (attempts config env r a l w) with
         | Resolved _ =>
             CircuitBreaker.state b' = CLOSED /\ CircuitBreaker.failures b' = 0
         | Rejected _ =>
             CircuitBreaker.failures b' = CircuitBreaker.failures b + Z.of_nat k
         | Pending => True
         end.
Proof.
  induction r as [|r IH]; intros a l w b Hb.
  { exists b, 0%nat. simpl. repeat split; auto; lia. }
  iteration config env a w no w0 Hr o w1 Hw Hsr;
    pose proof (refused_breaker config env c has_breaker a w b _ w0 Hb Hr) as Hb0;
    destruct (refused_calls config env a w _ w0 Hr) as (Hc0 & _ & _);
    try (destruct (attemptWork_calls config env w0 _ w1 Hw)
           as (Hc1 & _ & Hb1 & _); rewrite Hb0 in Hb1);
    try (destruct (breakerFailure_sameRun config env w1) as (_ & _ & _ & Hcf & _));
    try (destruct (breakerSuccess_sameRun config env w1) as (_ & _ & _ & Hcs & _)).
  - eexists; exists 0%nat. cbn [fst snd].
    split; [exact Hb0|]. split; [lia|].
    rewrite canAttempt_failures. lia.
  - eexists; exists 1%nat. cbn [fst snd fire breaker calls].
    split; [apply (breakerSuccess_breaker config env c has_breaker w1 _ Hb1)|].
    split; [lia | split; reflexivity].
  - eexists; exists 1%nat. cbn [fst snd fire breaker calls].
    split; [apply (breakerFailure_breaker config env c has_breaker w1 _ Hb1)|].
    split; [lia | rewrite onFailure_failures, canAttempt_failures; lia].
  - match goal with |- context [attempts config env r (a + 1) ?e ?w2] =>
      assert (Hb2 : breaker w2
                    = Some (fst (CircuitBreaker.onFailure c (wname config env)
                                   (snd (fst (CircuitBreaker.canAttempt c
                                                (wname config env) b (now w))))
                                   (now w1))))
        by (destruct (isPositive _); waited; cbn [advance fire breaker];
            apply (breakerFailure_breaker config env c has_breaker w1 _ Hb1));
      assert (Hc2 : calls w2 = S (calls w))
        by (destruct (isPositive _); waited; cbn [advance fire calls]; lia);
      destruct (IH (a + 1) e w2 _ Hb2) as (b' & k & Hb' & Hk & Hout)
    end.
    exists b', (S k). split; [exact Hb'|]. split; [lia|].
    destruct (fst (attempts config env r (a + 1) _ _)); auto.
    rewrite Hout, onFailure_failures, canAttempt_failures. lia.
  - eexists; exists 1%nat. cbn [fst snd].
    split; [exact Hb1|]. split; [lia | exact I].
Qed.
End Accounting.

(** X12. With a breaker, a call that resolves leaves the breaker CLOSED
    with a failure count of 0, and a call that
    rejects leaves the count raised by exactly the number of invocations of
    the callable it made: an attempt that the breaker refused adds
    nothing. *)
Theorem call_accounts_failures :
  forall (config : ResilienceConfig) (env : Env) (c : CircuitBreakerConfig)
         (w : World) (b : CircuitBreaker.t),
    circuitBreaker config = Some c ->
    breaker w = Some b ->
    exists b' k,
      breaker (snd (call config env w)) = Some b'
      /\ calls (snd (call config env w)) = (calls w + k)%nat
      /\ match fst (call config env w) with
         | Resolved _ =>
             CircuitBreaker.state b' = CLOSED /\ CircuitBreaker.failures b' = 0
         | Rejected _ =>
             CircuitBreaker.failures b' = CircuitBreaker.failures b + Z.of_nat k
         | Pending => True
         end.
Proof.
  intros config env c w b Hc Hb. unfold call.
  now apply attempts_account with (c := c).
Qed.

(** X12 for a call with three retries behind a breaker of threshold 1: one
    invocation, one failure counted, the refused attempt not. *)
Lemma call_accounts_failures_witness :
  exists b' k,
    breaker (snd (call Scenario.guarded Scenario.alwaysFails
                    (withResilience Scenario.guarded world0))) = Some b'
    /\ calls (snd (call Scenario.guarded Scenario.alwaysFails
                     (withResilience Scenario.guarded world0)))
       = (calls (withResilience Scenario.guarded world0) + k)%nat
    /\ match fst (call Scenario.guarded Scenario.alwaysFails
                    (withResilience Scenario.guarded world0)) with
       | Resolved _ =>
           CircuitBreaker.state b' = CLOSED /\ CircuitBreaker.failures b' = 0
       | Rejected _ =>
           CircuitBreaker.failures b'
           = CircuitBreaker.failures CircuitBreaker.new + Z.of_nat k
       | Pending => True
       end.
Proof.
  exact (call_accounts_failures Scenario.guarded Scenario.alwaysFails
           Scenario.cb1 (withResilience Scenario.guarded world0)
           CircuitBreaker.new eq_refl eq_refl).
Defined.

(** ** Settling *)

Lemma raced_settles t c p r :
  noTimeout t = false \/ p <> Hangs -> raced t c p r <> Pending.
Proof.
  intros H. unfold raced, withTimeout, timerFires.
  destruct (noTimeout t).
  - destruct H as [H | H]; [discriminate|]. destruct p; simpl; congruence.
  - destruct p; simpl;
      try match goal with |- context [?a <=? ?b] => destruct (a <=? b) end;
      simpl; destruct c, r; discriminate.
Qed.

Section Settling.
Variable config : ResilienceConfig.
Variable env : Env.
Hypothesis bounded :
  noTimeout (timeoutMs config) = false \/ forall i s, fn env i s <> Hangs.

Lemma outcomeAt_settles i c : outcomeAt config env i c <> Pending.
Proof.
  unfold outcomeAt. apply raced_settles.
  destruct bounded as [H | H]; [now left | right; apply H].
Qed.

Lemma attempts_settle r :
  forall a l w, fst (attempts config env r a l w) <> Pending.
Proof.
  induction r as [|r IH]; intros a l w; [discriminate|].
  iteration config env a w no w0 Hr o w1 Hw Hsr;
    try discriminate; [apply IH|].
  destruct (attemptWork_calls config env w0 _ w1 Hw) as (_ & _ & _ & Ho).
  exfalso. apply (outcomeAt_settles (calls w0) (controllers w0)). now rewrite <- Ho.
Qed.
End Settling.

(** X11. A call settles, by resolving or rejecting, whenever a non-zero
    [timeoutMs] is configured or the callable itself settles at every
    invocation; it can stay pending only by awaiting, without timeout, an
    invocation that never settles. *)
Theorem call_settles :
  forall (config : ResilienceConfig) (env : Env) (w : World),
    (noTimeout (timeoutMs config) = false \/ forall i s, fn env i s <> Hangs) ->
    fst (call config env w) <> Pending.
Proof. intros config env w H. now apply attempts_settle. Qed.

(** X11 for a callable that never settles under a timeout of 50 ms. *)
Lemma call_settles_witness :
  fst (call Scenario.timed Scenario.neverSettles Scenario.nested) <> Pending.
Proof.
  apply (call_settles Scenario.timed Scenario.neverSettles Scenario.nested).
  left. reflexivity.
Defined.

(** ** Controllers *)

Lemma advance_touched t w s : touched (advance t w) s -> touched w s.
Proof.
  unfold touched, advance. cbn [aborted timers].
  destruct (0 <? t); cbn [app]; [|auto].
  intros [H | [due H]].
  - apply in_app_or in H. destruct H as [H | H]; [|now left].
    apply in_map_iff in H. destruct H as ([due s'] & <- & H).
    apply filter_In in H. right. exists due. apply H.
  - apply filter_In in H. right. exists due. apply H.
Qed.

Lemma await_touched p w s : touched (snd (await p w)) s -> touched w s.
Proof. destruct p; cbn [await snd]; auto; apply advance_touched. Qed.

Lemma withTimeout_touched p r t c w s :
  touched (snd (withTimeout p r t c w)) s ->
  touched w s \/ (noTimeout t = false /\ c = Some s).
Proof.
  unfold withTimeout, timerFires.
  destruct (noTimeout t); [left; now apply await_touched with (p := p)|].
  assert (Harm : forall due w',
             touched (armTimer due c w') s -> touched w' s \/ c = Some s).
  { intros due w'. unfold armTimer, touched. destruct c as [s'|]; [|auto].
    cbn [aborted timers]. intros [H | [d [H | H]]]; eauto.
    inversion H. auto. }
  assert (Habort : forall w',
             touched (abort c w') s -> touched w' s \/ c = Some s).
  { intros w'. unfold abort, touched. destruct c as [s'|]; [|auto].
    cbn [aborted timers]. intros [[H | H] | H]; subst; eauto. }
  destruct (settlesAfter p) as [d|];
    [destruct (d <=? _)|]; cbn [fst snd]; intros H;
    try (destruct (Harm _ _ H) as [H' | H']; [|now right];
         left; now apply await_touched with (p := p));
    (destruct (Habort _ H) as [H' | H']; [|now right];
     left; now apply advance_touched with (t := setTimeoutDelay
                                                   match t with
                                                   | Some t => t
                                                   | None => 0
                                                   end)).
Qed.

Section Controllers.
Variable config : ResilienceConfig.
Variable env : Env.

Lemma refused_touched w s :
  touched (snd (refused config env w)) s -> touched w s.
Proof.
  unfold refused. destruct (breakerOf config w) as [[c b]|]; [|auto].
  destruct (CircuitBreaker.canAttempt c (wname config env) b (now w))
    as [[ok b'] evs]. auto.
Qed.

Lemma breakerSuccess_touched w s :
  touched (breakerSuccess config env w) s -> touched w s.
Proof.
  unfold breakerSuccess. destruct (breakerOf config w) as [[c b]|]; auto.
Qed.

Lemma breakerFailure_touched w s :
  touched (breakerFailure config env w) s -> touched w s.
Proof.
  unfold breakerFailure. destruct (breakerOf config w) as [[c b]|]; [|auto].
  destruct (CircuitBreaker.onFailure c (wname config env) b (now w)).
  auto.
Qed.

Lemma attemptWork_touched w s :
  touched (snd (attemptWork config env w)) s ->
  touched w s
  \/ (truthy (useAbortSignal config) = true
      /\ noTimeout (timeoutMs config) = false
      /\ s = controllers w).
Proof.
  unfold attemptWork, runWithActiveSignal, invoke, newController.
  destruct (truthy (useAbortSignal config)); cbn [fst snd];
    match goal with |- context [withTimeout ?p ?r ?t ?c ?x] =>
      pose proof (withTimeout_touched p r t c x s) as Ha;
      destruct (withTimeout p r t c x) as [o w']
    end; cbn [snd] in Ha; intros H;
    (destruct Ha as [Ha | (Hn & Hs)];
     [destruct o; exact H | now left | ]);
    try discriminate.
  inversion Hs. right. auto.
Qed.

Lemma attempts_touched r :
  forall a l w,
    (controllers w <= controllers (snd (attempts config env r a l w)))%nat
    /\ forall s,
         touched (snd (attempts config env r a l w)) s ->
         touched w s
         \/ ownSignal config w (snd (attempts config env r a l w)) s.
Proof.
  unfold ownSignal.
  induction r as [|r IH]; intros a l w; [simpl; auto|].
  iteration config env a w no w0 Hr o w1 Hw Hsr;
    destruct (refused_calls config env a w _ w0 Hr) as (_ & Hk0 & _);
    pose proof (fun s => refused_touched
                           (fire [onAttempt (wname config env) a] w) s) as Ha0;
    rewrite Hr in Ha0; cbn [snd] in Ha0;
    try (pose proof (attemptWork_spec config env w0) as (_ & _ & Hk1 & _);
         pose proof (fun s => attemptWork_touched w0 s) as Ha1;
         rewrite Hw in Hk1, Ha1; cbn [snd] in Hk1, Ha1;
         rewrite Hk0 in Hk1, Ha1);
    try (destruct (breakerFailure_sameRun config env w1) as (_ & _ & Hkf & _));
    try (destruct (breakerSuccess_sameRun config env w1) as (_ & _ & Hks & _)).
  - cbn [snd]. split; [lia|]. intros s Hs. left. now apply Ha0.
  - cbn [snd fire controllers]. rewrite Hks, Hk1.
    split; [lia|]. intros s Hs.
    apply breakerSuccess_touched in Hs.
    destruct (Ha1 s Hs) as [H | (Hu & Hn & ->)]; [left; now apply Ha0|].
    right. unfold ctlStep. rewrite Hu. repeat split; auto; lia.
  - cbn [snd fire controllers]. rewrite Hkf, Hk1.
    split; [lia|]. intros s Hs.
    apply breakerFailure_touched in Hs.
    destruct (Ha1 s Hs) as [H | (Hu & Hn & ->)]; [left; now apply Ha0|].
    right. unfold ctlStep. rewrite Hu. repeat split; auto; lia.
  - match goal with |- context [attempts config env r (a + 1) ?e ?w2] =>
      assert (Hk2 : controllers w2 = (controllers w + ctlStep config)%nat)
        by (destruct (isPositive _); waited; cbn [advance fire controllers]; lia);
      assert (Ha2 : forall s, touched w2 s -> touched w1 s)
        by (intros s; destruct (isPositive _); waited; intros Hs;
            try apply advance_touched in Hs;
            now apply breakerFailure_touched);
      destruct (IH (a + 1) e w2) as (Hle & Hin)
    end.
    split; [lia|]. intros s Hs. destruct (Hin s Hs) as [Hs' | (Hu & Hn & Hr')].
    + apply Ha2 in Hs'.
      destruct (Ha1 s Hs') as [H | (Hu & Hn & ->)]; [left; now apply Ha0|].
      right. repeat split; auto; try lia.
      unfold ctlStep in Hk2. rewrite Hu in Hk2. lia.
    + right. repeat split; auto; lia.
  - cbn [snd]. rewrite Hk1. split; [lia|]. intros s Hs.
    destruct (Ha1 s Hs) as [H | (Hu & Hn & ->)]; [left; now apply Ha0|].
    right. unfold ctlStep. rewrite Hu. repeat split; auto; lia.
Qed.
End Controllers.

(** X14. A call aborts, or arms a timer that will abort, only controllers
    that it created itself, and only when both [useAbortSignal] and a
    non-zero [timeoutMs] are configured: every signal found aborted after
    the call, or left with a timer that is still to abort it, was aborted
    before the call, had such a timer before the call, or is one of the
    call's own. *)
Theorem call_aborts_only_its_own :
  forall (config : ResilienceConfig) (env : Env) (w : World) (s : Signal),
    In s (aborted (snd (call config env w)))
    \/ (exists due, In (due, s) (timers (snd (call config env w)))) ->
    In s (aborted w)
    \/ (exists due, In (due, s) (timers w))
    \/ (truthy (useAbortSignal config) = true
        /\ noTimeout (timeoutMs config) = false
        /\ (controllers w <= s < controllers (snd (call config env w)))%nat).
Proof.
  intros config env w s H.
  destruct (attempts_touched config env
              (Z.to_nat (wretries config + 1)) 1 VUndefined w) as (_ & Hin).
  destruct (Hin s H) as [[H' | H'] | H']; auto.
Qed.

(** X14 for a call that settles before its timeout with the ambient signal
    switched on: signal 0, its own, is the one left with a timer, due 50 ms
    after the attempt began. *)
Lemma call_aborts_only_its_own_witness :
  In (50, 0%nat) (timers (snd (call Scenario.timed Scenario.failsOnce world0)))
  /\ (In 0%nat (aborted world0)
      \/ (exists due, In (due, 0%nat) (timers world0))
      \/ (truthy (useAbortSignal Scenario.timed) = true
          /\ noTimeout (timeoutMs Scenario.timed) = false
          /\ (controllers world0 <= 0
              < controllers (snd (call Scenario.timed Scenario.failsOnce
                                    world0)))%nat)).
Proof.
  assert (H : In (50, 0%nat)
                (timers (snd (call Scenario.timed Scenario.failsOnce world0))))
    by (vm_compute; left; reflexivity).
  split; [exact H|].
  exact (call_aborts_only_its_own Scenario.timed Scenario.failsOnce world0
           0%nat (or_intror (ex_intro _ 50 H))).
Defined.

(** ** Hooks *)

Lemma retriesFired_app t1 t2 :
  retriesFired (t1 ++ t2) = (retriesFired t1 + retriesFired t2)%nat.
Proof. unfold retriesFired. now rewrite filter_app, length_app. Qed.

Lemma outcomesFired_app t1 t2 :
  outcomesFired (t1 ++ t2) = (outcomesFired t1 + outcomesFired t2)%nat.
Proof. unfold outcomesFired. now rewrite filter_app, length_app. Qed.

Lemma newEvents_app w w' evs :
  trace w' = trace w ++ evs -> newEvents w w' = evs.
Proof.
  intros H. unfold newEvents. rewrite H.
  rewrite skipn_app, skipn_all, Nat.sub_diag. reflexivity.
Qed.

Lemma breakerHooks_methods c n b t :
  breakerHooks n (snd (CircuitBreaker.canAttempt c n b t))
  /\ breakerHooks n (snd (CircuitBreaker.onSuccess n b))
  /\ breakerHooks n (snd (CircuitBreaker.onFailure c n b t)).
Proof.
  unfold breakerHooks, CircuitBreaker.canAttempt, CircuitBreaker.onSuccess,
    CircuitBreaker.onFailure.
  repeat split;
    try (destruct (CircuitBreaker.state b); simpl; auto;
         destruct (resetTimeoutMs c <=? t - CircuitBreaker.openedAt b);
         simpl; auto);
    try (destruct (failureThreshold c <=? CircuitBreaker.failures b + 1);
         simpl; auto).
Qed.

Section Hooks.
Variable config : ResilienceConfig.
Variable env : Env.

Lemma refused_trace w :
  exists evs,
    trace (snd (refused config env w)) = trace w ++ evs
    /\ breakerHooks (wname config env) evs.
Proof.
  unfold refused. destruct (breakerOf config w) as [[c b]|].
  - destruct (breakerHooks_methods c (wname config env) b (now w)) as (H & _ & _).
    destruct (CircuitBreaker.canAttempt c (wname config env) b (now w))
      as [[ok b'] evs]. exists evs. auto.
  - exists []. simpl. rewrite app_nil_r. repeat split; auto.
Qed.

Lemma breakerSuccess_trace w :
  exists evs,
    trace (breakerSuccess config env w) = trace w ++ evs
    /\ breakerHooks (wname config env) evs.
Proof.
  unfold breakerSuccess. destruct (breakerOf config w) as [[c b]|].
  - destruct (breakerHooks_methods c (wname config env) b (now w)) as (_ & H & _).
    exists (snd (CircuitBreaker.onSuccess (wname config env) b)). auto.
  - exists []. simpl. rewrite app_nil_r. repeat split; auto.
Qed.

Lemma breakerFailure_trace w :
  exists evs,
    trace (breakerFailure config env w) = trace w ++ evs
    /\ breakerHooks (wname config env) evs.
Proof.
  unfold breakerFailure. destruct (breakerOf config w) as [[c b]|].
  - destruct (breakerHooks_methods c (wname config env) b (now w)) as (_ & _ & H).
    destruct (CircuitBreaker.onFailure c (wname config env) b (now w))
      as [b' evs]. exists evs. auto.
  - exists []. simpl. rewrite app_nil_r. repeat split; auto.
Qed.
End Hooks.

Ltac tally :=
  rewrite ?attemptsFired_app, ?retriesFired_app, ?outcomesFired_app;
  repeat match goal with
         | H : breakerHooks _ _ |- _ =>
             let Hn := fresh "Hn" in
             let Ha := fresh "Ha" in
             let Hr := fresh "Hr" in
             let Ho := fresh "Ho" in
             destruct H as (Hn & Ha & Hr & Ho);
             rewrite ?Ha, ?Hr, ?Ho
         end;
  unfold attemptsFired, retriesFired, outcomesFired in *; simpl.

Ltac named :=
  repeat match goal with
         | H : breakerHooks _ _ |- _ => destruct H as (H & _)
         end;
  repeat (apply Forall_app; split); auto;
  repeat (apply Forall_cons; [reflexivity|]); auto.

Section HookCounts.
Variable config : ResilienceConfig.
Variable env : Env.

Lemma attempts_hooks r :
  forall a l w,
    Z.of_nat r = wretries config + 2 - a -> (1 <= r)%nat ->
    exists evs,
      trace (snd (attempts config env r a l w)) = trace w ++ evs
      /\ Forall (fun ev => eventName ev = wname config env) evs
      /\ (fst (attempts config env r a l w) <> Pending ->
          attemptsFired evs = S (retriesFired evs)
          /\ calls (snd (attempts config env r a l w))
             = (calls w + outcomesFired evs)%nat).
Proof.
  induction r as [|r IH]; intros a l w Hinv Hr1; [lia|].
  iteration config env a w no w0 Hr o w1 Hw Hsr;
    destruct (refused_trace config env (fire [onAttempt (wname config env) a] w))
      as (e0 & Ht0 & Hq0);
    rewrite Hr in Ht0; cbn [snd fire trace] in Ht0;
    destruct (refused_calls config env a w _ w0 Hr) as (Hc0 & _ & _);
    try (destruct (attemptWork_calls config env w0 _ w1 Hw)
           as (Hc1 & Ht1 & _ & _));
    try (destruct (breakerFailure_trace config env w1) as (ef & Htf & Hqf);
         destruct (breakerFailure_sameRun config env w1) as (_ & _ & _ & Hcf & _));
    try (destruct (breakerSuccess_trace config env w1) as (es & Hts & Hqs);
         destruct (breakerSuccess_sameRun config env w1) as (_ & _ & _ & Hcs & _)).
  - exists ([onAttempt (wname config env) a] ++ e0). cbn [fst snd].
    split; [now rewrite Ht0, <- app_assoc|]. split; [named|].
    intros _. rewrite Hc0. tally. lia.
  - exists ([onAttempt (wname config env) a] ++ e0 ++ es
            ++ [onSuccess (wname config env) a (now w1 - now w0)]).
    cbn [fst snd fire trace calls].
    split; [now rewrite Hts, Ht1, Ht0, <- !app_assoc|]. split; [named|].
    intros _. rewrite Hcs, Hc1, Hc0. tally. lia.
  - exists ([onAttempt (wname config env) a] ++ e0 ++ ef
            ++ [onFailure (wname config env) a (now w1 - now w0) e]).
    cbn [fst snd fire trace calls].
    split; [now rewrite Htf, Ht1, Ht0, <- !app_assoc|]. split; [named|].
    intros _. rewrite Hcf, Hc1, Hc0. tally. lia.
  - assert (Ha : a <= wretries config).
    { apply negb_false_iff, andb_true_iff in Hsr. destruct Hsr as [Hsr _].
      now apply Z.leb_le. }
    match goal with |- context [attempts config env r (a + 1) ?e ?w2] =>
      assert (Ht2 : trace w2
                    = trace w ++ [onAttempt (wname config env) a] ++ e0 ++ ef
                      ++ [onFailure (wname config env) a (now w1 - now w0) e;
                          onRetry (wname config env) a
                            (computeBackoffMs (backoff config) a (random env a))
                            e])
        by (destruct (isPositive _); waited; cbn [advance fire trace];
            rewrite Htf, Ht1, Ht0, <- !app_assoc; reflexivity);
      assert (Hc2 : calls w2 = S (calls w))
        by (destruct (isPositive _); waited; cbn [advance fire calls]; lia);
      destruct (IH (a + 1) e w2) as (evs & Hte & Hne & Hce); [lia | lia |];
      exists ([onAttempt (wname config env) a] ++ e0 ++ ef
              ++ [onFailure (wname config env) a (now w1 - now w0) e;
                  onRetry (wname config env) a
                    (computeBackoffMs (backoff config) a (random env a)) e]
              ++ evs)
    end.
    split; [rewrite Hte, Ht2, <- !app_assoc; reflexivity|]. split; [named|].
    intros Hp. destruct (Hce Hp) as (Haf & Hcalls).
    rewrite Hcalls, Hc2. tally. lia.
  - exists ([onAttempt (wname config env) a] ++ e0). cbn [fst snd].
    split; [now rewrite Ht1, Ht0, <- app_assoc|]. split; [named|].
    intros H. now elim H.
Qed.
End HookCounts.

Lemma hooks_appended_named_aux config env w :
  exists evs,
    trace (snd (call config env w)) = trace w ++ evs
    /\ Forall (fun ev => eventName ev = wname config env) evs.
Proof.
  unfold call.
  destruct (Z_lt_le_dec (wretries config) 0) as [Hn | Hn].
  - replace (Z.to_nat (wretries config + 1)) with 0%nat by lia.
    exists []. simpl. now rewrite app_nil_r.
  - destruct (attempts_hooks config env (Z.to_nat (wretries config + 1))
                1 VUndefined w) as (evs & Ht & Hnamed & _); [lia | lia |].
    exists evs. auto.
Qed.

(** X15. A call only appends to what the hooks were told before, and every
    hook it fires, the breaker's included, is told the name of the wrapped
    function. *)
Theorem hooks_appended_and_named :
  forall (config : ResilienceConfig) (env : Env) (w : World),
    exists evs,
      trace (snd (call config env w)) = trace w ++ evs
      /\ Forall (fun ev => eventName ev = wname config env) evs.
Proof.
  intros config env w. apply hooks_appended_named_aux.
Qed.

(** X16. In a call that settles, with a retry count that is not negative,
    [onRetry] fires once less than [onAttempt], and every invocation of the
    callable is reported by exactly one [onSuccess] or [onFailure]. *)
Theorem hooks_counted :
  forall (config : ResilienceConfig) (env : Env) (w : World),
    0 <= wretries config ->
    fst (call config env w) <> Pending ->
    let evs := newEvents w (snd (call config env w)) in
    attemptsFired evs = S (retriesFired evs)
    /\ calls (snd (call config env w)) = (calls w + outcomesFired evs)%nat.
Proof.
  intros config env w Hn Hp evs. subst evs. unfold call in *.
  destruct (attempts_hooks config env (Z.to_nat (wretries config + 1))
              1 VUndefined w) as (evs & Ht & _ & Hc); [lia | lia |].
  rewrite (newEvents_app _ _ _ Ht). now apply Hc.
Qed.

(** X16 for the call that throws once and then returns 42. *)
Lemma hooks_counted_witness :
  attemptsFired (newEvents world0
                   (snd (call Scenario.plain3 Scenario.failsOnce world0)))
  = S (retriesFired (newEvents world0
                       (snd (call Scenario.plain3 Scenario.failsOnce world0))))
  /\ calls (snd (call Scenario.plain3 Scenario.failsOnce world0))
     = (calls world0
        + outcomesFired (newEvents world0
                           (snd (call Scenario.plain3 Scenario.failsOnce
                                   world0))))%nat.
Proof.
  assert (Hn : 0 <= wretries Scenario.plain3) by (unfold wretries; simpl; lia).
  assert (Hp : fst (call Scenario.plain3 Scenario.failsOnce world0) <> Pending)
    by (vm_compute; discriminate).
  exact (hooks_counted Scenario.plain3 Scenario.failsOnce world0 Hn Hp).
Defined.

(** ** Metrics adapter *)

Module JsMapFacts.
Import JsMap.

Lemma get_set_same k v m : get k (set k v m) = Some v.
Proof.
  induction m as [|[k' v'] m IH]; simpl.
  - now rewrite String.eqb_refl.
  - destruct (String.eqb k k') eqn:E; simpl; rewrite ?String.eqb_refl, ?E; auto.
Qed.

Lemma get_set_other k k' v m : k' <> k -> get k' (set k v m) = get k' m.
Proof.
  intros Hne. induction m as [|[k0 v0] m IH]; simpl.
  - apply String.eqb_neq in Hne. now rewrite Hne.
  - destruct (String.eqb k k0) eqn:E; simpl.
    + apply String.eqb_eq in E. subst k0.
      apply String.eqb_neq in Hne. now rewrite Hne.
    + now rewrite IH.
Qed.

Lemma set_set k v v0 m : set k v (set k v0 m) = set k v m.
Proof.
  induction m as [|[k' v'] m IH]; simpl.
  - now rewrite String.eqb_refl.
  - destruct (String.eqb k k') eqn:E; simpl; rewrite ?String.eqb_refl, ?E;
      [reflexivity | now rewrite IH].
Qed.

Lemma total_set k v m :
  total (set k v m)
  = total m - (match get k m with Some c => c | None => 0 end) + v.
Proof.
  induction m as [|[k' v'] m IH]; simpl.
  - lia.
  - destruct (String.eqb k k') eqn:E; simpl; [lia | rewrite IH; lia].
Qed.

Lemma has_get k m : has k m = false -> get k m = None.
Proof. unfold has. now destruct (get k m). Qed.
End JsMapFacts.

Module MetricsFacts.
Import WrapperInit.

Lemma count_record_same n m : count n (record n m) = count n m + 1.
Proof. unfold count, record. simpl. now rewrite JsMapFacts.get_set_same. Qed.

Lemma count_record_other n k m : k <> n -> count k (record n m) = count k m.
Proof.
  intros H. unfold count, record. simpl. now rewrite JsMapFacts.get_set_other.
Qed.

Lemma total_record n m :
  JsMap.total (f_store (record n m)) = JsMap.total (f_store m) + 1.
Proof. unfold record, count. simpl. rewrite JsMapFacts.total_set. lia. Qed.

Lemma total_hooks ev m :
  JsMap.total (f_store m) = functionCalls m ->
  JsMap.total (f_store (hooks ev m)) = functionCalls (hooks ev m).
Proof.
  intros H. destruct ev; cbn [hooks]; try exact H.
  rewrite total_record. unfold record. cbn [functionCalls]. lia.
Qed.

Lemma total_observe evs :
  forall m,
    JsMap.total (f_store m) = functionCalls m ->
    JsMap.total (f_store (observe evs m)) = functionCalls (observe evs m).
Proof.
  unfold observe. induction evs as [|ev evs IH]; intros m H; simpl; [exact H|].
  apply IH. now apply total_hooks.
Qed.

(** The store that [run] works on, the key registered. *)
Lemma run_store n m :
  let store := if JsMap.has n (f_store m) then f_store m
               else JsMap.set n 0 (f_store m) in
  JsMap.total store = JsMap.total (f_store m)
  /\ (forall k, match JsMap.get k store with Some c => c | None => 0 end
                = count k m)
  /\ JsMap.has n store = true
  /\ JsMap.set n (count n m + 1) store = JsMap.set n (count n m + 1) (f_store m).
Proof.
  unfold count. destruct (JsMap.has n (f_store m)) eqn:Hh; simpl.
  - auto.
  - pose proof (JsMapFacts.has_get _ _ Hh) as Hg. repeat split.
    + rewrite JsMapFacts.total_set, Hg. lia.
    + intros k. destruct (String.eqb k n) eqn:E.
      * apply String.eqb_eq in E. subst k.
        now rewrite JsMapFacts.get_set_same, Hg.
      * apply String.eqb_neq in E. now rewrite JsMapFacts.get_set_other.
    + unfold JsMap.has. now rewrite JsMapFacts.get_set_same.
    + apply JsMapFacts.set_set.
Qed.

Lemma attemptsFired_cons ev evs :
  attemptsFired (ev :: evs)
  = ((match ev with onAttempt _ _ => 1 | _ => 0 end) + attemptsFired evs)%nat.
Proof. destruct ev; reflexivity. Qed.

Lemma observe_named n evs :
  forall m,
    Forall (fun ev => eventName ev = n) evs ->
    functionCalls (observe evs m)
    = functionCalls m + Z.of_nat (attemptsFired evs)
    /\ count n (observe evs m) = count n m + Z.of_nat (attemptsFired evs)
    /\ forall k, k <> n -> count k (observe evs m) = count k m.
Proof.
  induction evs as [|ev evs IH]; intros m Hn.
  - unfold observe, attemptsFired. simpl. repeat split; auto; lia.
  - inversion Hn as [|? ? Hev Hrest]; subst.
    destruct (IH (hooks ev m) Hrest) as (Hf & Hc & Ho).
    change (observe (ev :: evs) m) with (observe evs (hooks ev m)).
    rewrite Hf, Hc, attemptsFired_cons.
    destruct ev; cbn [hooks eventName] in *;
      try (split; [lia | split; [lia | exact Ho]]).
    rewrite count_record_same. unfold record at 1. cbn [functionCalls].
    split; [lia | split; [lia|]].
    intros k Hk. rewrite Ho by exact Hk. now apply count_record_other.
Qed.
End MetricsFacts.

(** X17. The total of the per-name counters equals [functionCalls]: it
    holds for new metrics and is kept by [record], by the hooks that
    [hooks()] subscribes and by [run], whether the function returns or
    throws. *)
Theorem metrics_total_is_functionCalls :
  JsMap.total (WrapperInit.f_store WrapperInit.new)
  = WrapperInit.functionCalls WrapperInit.new
  /\ forall m : WrapperInit.t,
       JsMap.total (WrapperInit.f_store m) = WrapperInit.functionCalls m ->
       (forall n,
           JsMap.total (WrapperInit.f_store (WrapperInit.record n m))
           = WrapperInit.functionCalls (WrapperInit.record n m))
       /\ (forall evs,
             JsMap.total (WrapperInit.f_store (WrapperInit.observe evs m))
             = WrapperInit.functionCalls (WrapperInit.observe evs m))
       /\ (forall f n args,
             JsMap.total (WrapperInit.f_store (snd (WrapperInit.run f n args m)))
             = WrapperInit.functionCalls (snd (WrapperInit.run f n args m))).
Proof.
  split; [reflexivity|]. intros m H. split; [|split].
  - intros n. rewrite MetricsFacts.total_record. simpl. lia.
  - intros evs. now apply MetricsFacts.total_observe.
  - intros f n args.
    destruct (MetricsFacts.run_store n m) as (Ht & Hc & _ & _).
    unfold WrapperInit.run, WrappedFunction.run, WrappedFunction.new.
    cbn [WrappedFunction.fn WrappedFunction.args WrappedFunction.name].
    destruct (f args) as [v d | e d]; cbn [snd WrapperInit.f_store
                                            WrapperInit.functionCalls].
    + rewrite JsMapFacts.total_set. rewrite Ht. lia.
    + rewrite Ht. exact H.
Qed.

(** X18. [run] of a function that returns hands back its value and
    changes the metrics exactly as [record] of its name does. [run] of a
    function that throws hands on the error and leaves [functionCalls] and
    every counter as they were, but the name is registered in the store
    from then on. *)
Theorem run_counts_like_record :
  forall (f : list value -> SyncBehaviour) (n : string) (args : list value)
         (m : WrapperInit.t),
    match f args with
    | SyncReturns v _ =>
        WrapperInit.run f n args m = (inl v, WrapperInit.record n m)
    | SyncThrows e _ =>
        fst (WrapperInit.run f n args m) = inr e
        /\ WrapperInit.functionCalls (snd (WrapperInit.run f n args m))
           = WrapperInit.functionCalls m
        /\ (forall k, WrapperInit.count k (snd (WrapperInit.run f n args m))
                      = WrapperInit.count k m)
        /\ JsMap.has n (WrapperInit.f_store (snd (WrapperInit.run f n args m)))
           = true
    end.
Proof.
  intros f n args m.
  destruct (MetricsFacts.run_store n m) as (_ & Hc & Hh & Hs).
  unfold WrapperInit.run, WrappedFunction.run, WrappedFunction.new.
  cbn [WrappedFunction.fn WrappedFunction.args WrappedFunction.name].
  destruct (f args) as [v d | e d].
  - cbn [returnValue]. unfold WrapperInit.record. f_equal. f_equal.
    rewrite (Hc n). exact Hs.
  - cbn [fst snd WrapperInit.functionCalls]. repeat split; auto.
Qed.

(** X17 for new metrics after one [record]. *)
Lemma metrics_total_is_functionCalls_witness :
  JsMap.total (WrapperInit.f_store (WrapperInit.record "f" WrapperInit.new))
  = WrapperInit.functionCalls (WrapperInit.record "f" WrapperInit.new).
Proof.
  destruct metrics_total_is_functionCalls as [H0 H].
  destruct (H WrapperInit.new H0) as (Hr & _ & _).
  apply Hr.
Defined.

(** [wrap] settles the name and passes the rest on: the call is the one of
    the configuration given. *)
Lemma call_wrap config env w :
  call (WrapperInit.wrap config env) env w = call config env w.
Proof. reflexivity. Qed.

(** X19. One call of a function wrapped by [WrapperInit.wrap] behaves as
    the call under the given configuration and adds to [functionCalls] and
    to the counter of the function's name the number of [onAttempt] hooks
    it fired, leaving the other counters alone. That number covers the
    attempts that the breaker refused, so it is at least the number of
    invocations of the callable. *)
Theorem wrapped_call_counts_attempts :
  forall (config : ResilienceConfig) (env : Env) (m : WrapperInit.t)
         (w : World),
    let r := callWrapped config env (m, w) in
    let m' := fst (snd r) in
    let w' := snd (snd r) in
    fst r = fst (call config env w)
    /\ w' = snd (call config env w)
    /\ exists k j,
         calls w' = (calls w + k)%nat /\ (k <= j)%nat
         /\ attemptsFired (trace w') = (attemptsFired (trace w) + j)%nat
         /\ WrapperInit.functionCalls m'
            = WrapperInit.functionCalls m + Z.of_nat j
         /\ WrapperInit.count (wname config env) m'
            = WrapperInit.count (wname config env) m + Z.of_nat j
         /\ forall n, n <> wname config env ->
                      WrapperInit.count n m' = WrapperInit.count n m.
Proof.
  intros config env m w r m' w'. subst r m' w'. unfold callWrapped.
  rewrite call_wrap.
  destruct (hooks_appended_named_aux config env w) as (evs & Ht & Hn).
  destruct (attempts_bounds config env (Z.to_nat (wretries config + 1))
              1 VUndefined w) as (k & j & Hk & Hj & Hkj).
  fold (call config env w) in Hk, Hj.
  destruct (call config env w) as [o w'] eqn:E. cbn [fst snd] in *.
  split; [reflexivity|]. split; [reflexivity|].
  rewrite (newEvents_app _ _ _ Ht).
  destruct (MetricsFacts.observe_named (wname config env) evs m Hn)
    as (Hf & Hc & Ho).
  assert (Hj' : attemptsFired evs = j).
  { rewrite Ht, attemptsFired_app in Hj. lia. }
  exists k, j. rewrite <- Hj'. repeat split; auto; lia.
Qed.

(** ** Retries *)

Lemma hookInRange_weaken config env a a' ev :
  a <= a' -> hookInRange config env a' ev -> hookInRange config env a ev.
Proof. intros Hle. destruct ev; simpl; intros; try lia; auto.
  destruct H as (H1 & H2 & H3). repeat split; auto; lia.
Qed.

Lemma breakerHooks_inRange config env a n evs :
  breakerHooks n evs -> Forall (hookInRange config env a) evs.
Proof.
  intros (_ & Ha & Hr & _). induction evs as [|ev evs IH]; [constructor|].
  rewrite MetricsFacts.attemptsFired_cons in Ha.
  assert (Hr' : retriesFired (ev :: evs)
                = ((match ev with onRetry _ _ _ _ => 1 | _ => 0 end)
                   + retriesFired evs)%nat) by (destruct ev; reflexivity).
  rewrite Hr' in Hr.
  constructor; [destruct ev; simpl; auto; lia | apply IH; lia].
Qed.

Section RetryRange.
Variable config : ResilienceConfig.
Variable env : Env.

Lemma attempts_inRange r :
  forall a l w,
    Z.of_nat r <= wretries config + 2 - a ->
    exists evs,
      trace (snd (attempts config env r a l w)) = trace w ++ evs
      /\ Forall (hookInRange config env a) evs.
Proof.
  induction r as [|r IH]; intros a l w Hinv.
  { exists []. simpl. now rewrite app_nil_r. }
  assert (HA : hookInRange config env a (onAttempt (wname config env) a))
    by (simpl; lia).
  iteration config env a w no w0 Hr o w1 Hw Hsr;
    destruct (refused_trace config env (fire [onAttempt (wname config env) a] w))
      as (e0 & Ht0 & Hq0);
    rewrite Hr in Ht0; cbn [snd fire trace] in Ht0;
    apply (breakerHooks_inRange config env a) in Hq0;
    try (destruct (attemptWork_calls config env w0 _ w1 Hw)
           as (_ & Ht1 & _ & _));
    try (destruct (breakerFailure_trace config env w1) as (ef & Htf & Hqf);
         apply (breakerHooks_inRange config env a) in Hqf);
    try (destruct (breakerSuccess_trace config env w1) as (es & Hts & Hqs);
         apply (breakerHooks_inRange config env a) in Hqs).
  - exists ([onAttempt (wname config env) a] ++ e0). cbn [snd].
    split; [now rewrite Ht0, <- app_assoc|].
    apply Forall_app; split; auto.
  - exists ([onAttempt (wname config env) a] ++ e0 ++ es
            ++ [onSuccess (wname config env) a (now w1 - now w0)]).
    cbn [snd fire trace].
    split; [now rewrite Hts, Ht1, Ht0, <- !app_assoc|].
    repeat (apply Forall_app; split); auto. repeat constructor.
  - exists ([onAttempt (wname config env) a] ++ e0 ++ ef
            ++ [onFailure (wname config env) a (now w1 - now w0) e]).
    cbn [snd fire trace].
    split; [now rewrite Htf, Ht1, Ht0, <- !app_assoc|].
    repeat (apply Forall_app; split); auto. repeat constructor.
  - apply negb_false_iff, andb_true_iff in Hsr. destruct Hsr as [Hle Hacc].
    apply Z.leb_le in Hle.
    match goal with |- context [attempts config env r (a + 1) ?e ?w2] =>
      assert (Ht2 : trace w2
                    = trace w ++ [onAttempt (wname config env) a] ++ e0 ++ ef
                      ++ [onFailure (wname config env) a (now w1 - now w0) e;
                          onRetry (wname config env) a
                            (computeBackoffMs (backoff config) a (random env a))
                            e])
        by (destruct (isPositive _); waited; cbn [advance fire trace];
            rewrite Htf, Ht1, Ht0, <- !app_assoc; reflexivity);
      destruct (IH (a + 1) e w2) as (evs & Hte & Hne); [lia|];
      exists ([onAttempt (wname config env) a] ++ e0 ++ ef
              ++ [onFailure (wname config env) a (now w1 - now w0) e;
                  onRetry (wname config env) a
                    (computeBackoffMs (backoff config) a (random env a)) e]
              ++ evs)
    end.
    split; [rewrite Hte, Ht2, <- !app_assoc; reflexivity|].
    repeat (apply Forall_app; split); auto.
    + repeat constructor; simpl; auto; lia.
    + eapply Forall_impl; [|exact Hne].
      intros ev. apply hookInRange_weaken. lia.
  - exists ([onAttempt (wname config env) a] ++ e0). cbn [snd].
    split; [now rewrite Ht1, Ht0, <- app_assoc|].
    apply Forall_app; split; auto.
Qed.
End RetryRange.

(** X20. In every call, each [onAttempt] hook is for an attempt from 1 to
    [retries + 1], and each [onRetry] hook is for an attempt from 1 to
    [retries], for an error that the retry predicate accepted, with the
    delay that [computeBackoffMs] gives for that attempt: an error that the
    predicate rejects is never retried. *)
Theorem retries_only_when_accepted :
  forall (config : ResilienceConfig) (env : Env) (w : World),
    Forall (hookInRange config env 1)
      (newEvents w (snd (call config env w))).
Proof.
  intros config env w. unfold call.
  destruct (Z_lt_le_dec (wretries config) 0) as [Hn | Hn].
  - replace (Z.to_nat (wretries config + 1)) with 0%nat by lia.
    simpl. unfold newEvents. rewrite skipn_all. constructor.
  - destruct (attempts_inRange config env (Z.to_nat (wretries config + 1))
                1 VUndefined w) as (evs & Ht & Hr); [lia|].
    now rewrite (newEvents_app _ _ _ Ht).
Qed.

(** ** The error that a call surfaces *)

Section Surfaced.
Variable config : ResilienceConfig.
Variable env : Env.

Lemma refused_true_inv w w0 : refused config env w = (true, w0) -> w0 = w.
Proof.
  unfold refused. destruct (breakerOf config w) as [[c b]|] eqn:Hb;
    [|discriminate].
  destruct (CircuitBreaker.canAttempt c (wname config env) b (now w))
    as [[ok b'] evs] eqn:Hc.
  intros H. inversion H as [[Hok Hw]]. apply negb_true_iff in Hok. subst ok.
  assert (Hf : fst (fst (CircuitBreaker.canAttempt c (wname config env) b (now w)))
               = false) by now rewrite Hc.
  rewrite (canAttempt_false _ _ _ _ Hf) in Hc. inversion Hc; subst.
  rewrite fire_nil. apply set_breaker_same.
  now apply (breakerOf_breaker config) in Hb.
Qed.

Lemma attempts_last r :
  forall a l w,
    Z.of_nat r = wretries config + 2 - a -> (1 <= r)%nat ->
    exists evs,
      trace (snd (attempts config env r a l w)) = trace w ++ evs
      /\ match fst (attempts config env r a l w) with
         | Resolved _ =>
             exists pre i t, evs = pre ++ [onSuccess (wname config env) i t]
         | Rejected e =>
             (e = CircuitOpenError (wname config env)
              /\ exists pre i, evs = pre ++ [onAttempt (wname config env) i])
             \/ exists pre i t, evs = pre ++ [onFailure (wname config env) i t e]
         | Pending => True
         end.
Proof.
  induction r as [|r IH]; intros a l w Hinv Hr1; [lia|].
  iteration config env a w no w0 Hr o w1 Hw Hsr;
    destruct (refused_trace config env (fire [onAttempt (wname config env) a] w))
      as (e0 & Ht0 & _);
    rewrite Hr in Ht0; cbn [snd fire trace] in Ht0;
    try (destruct (attemptWork_calls config env w0 _ w1 Hw)
           as (_ & Ht1 & _ & _));
    try (destruct (breakerFailure_trace config env w1) as (ef & Htf & _));
    try (destruct (breakerSuccess_trace config env w1) as (es & Hts & _)).
  - apply refused_true_inv in Hr. subst w0.
    exists [onAttempt (wname config env) a]. cbn [fst snd fire trace].
    split; [reflexivity|]. left. split; [reflexivity|]. now exists [], a.
  - eexists. cbn [fst snd fire trace]. split.
    + rewrite Hts, Ht1, Ht0, <- !app_assoc. reflexivity.
    + exists ([onAttempt (wname config env) a] ++ e0 ++ es), a, (now w1 - now w0).
      now rewrite <- !app_assoc.
  - eexists. cbn [fst snd fire trace]. split.
    + rewrite Htf, Ht1, Ht0, <- !app_assoc. reflexivity.
    + right.
      exists ([onAttempt (wname config env) a] ++ e0 ++ ef), a, (now w1 - now w0).
      now rewrite <- !app_assoc.
  - assert (Ha : a <= wretries config).
    { apply negb_false_iff, andb_true_iff in Hsr. destruct Hsr as [Hsr _].
      now apply Z.leb_le. }
    match goal with |- context [attempts config env r (a + 1) ?e ?w2] =>
      assert (Ht2 : exists mid, trace w2 = trace w ++ mid)
        by (destruct (isPositive _); waited; cbn [advance fire trace];
            rewrite Htf, Ht1, Ht0, <- !app_assoc; eexists; reflexivity);
      destruct Ht2 as (mid & Ht2);
      destruct (IH (a + 1) e w2) as (evs & Hte & Hlast); [lia | lia |]
    end.
    exists (mid ++ evs). split; [rewrite Hte, Ht2, <- app_assoc; reflexivity|].
    destruct (fst (attempts config env r (a + 1) _ _)) as [v | e' |]; auto.
    + destruct Hlast as (pre & i & t & ->).
      exists (mid ++ pre), i, t. now rewrite <- app_assoc.
    + destruct Hlast as [(He & pre & i & ->) | (pre & i & t & ->)].
      * left. split; [exact He|]. exists (mid ++ pre), i. now rewrite <- app_assoc.
      * right. exists (mid ++ pre), i, t. now rewrite <- app_assoc.
  - exists ([onAttempt (wname config env) a] ++ e0). cbn [fst snd].
    split; [now rewrite Ht1, Ht0, <- app_assoc | exact I].
Qed.
End Surfaced.

(** X21. With a retry count that is not negative, the last hook of a call
    that resolves is [onSuccess]; a call that rejects either rejects with
    the error given to its last hook, [onFailure], or rejects with
    [CircuitOpenError] right after an [onAttempt] hook, the attempt having
    been refused. *)
Theorem surfaced_error_is_last_reported :
  forall (config : ResilienceConfig) (env : Env) (w : World),
    0 <= wretries config ->
    let n := wname config env in
    let evs := newEvents w (snd (call config env w)) in
    match fst (call config env w) with
    | Resolved _ => exists pre i t, evs = pre ++ [onSuccess n i t]
    | Rejected e =>
        (e = CircuitOpenError n /\ exists pre i, evs = pre ++ [onAttempt n i])
        \/ exists pre i t, evs = pre ++ [onFailure n i t e]
    | Pending => True
    end.
Proof.
  intros config env w Hn n evs. subst n evs. unfold call.
  destruct (attempts_last config env (Z.to_nat (wretries config + 1))
              1 VUndefined w) as (evs & Ht & Hlast); [lia | lia |].
  now rewrite (newEvents_app _ _ _ Ht).
Qed.

(** X21 for the callable that always throws ["boom"], retried three
    times. *)
Lemma surfaced_error_is_last_reported_witness :
  match fst (call Scenario.plain3 Scenario.alwaysFails world0) with
  | Resolved _ =>
      exists pre i t,
        newEvents world0 (snd (call Scenario.plain3 Scenario.alwaysFails world0))
        = pre ++ [onSuccess "f" i t]
  | Rejected e =>
      (e = CircuitOpenError "f"
       /\ exists pre i,
            newEvents world0
              (snd (call Scenario.plain3 Scenario.alwaysFails world0))
            = pre ++ [onAttempt "f" i])
      \/ exists pre i t,
           newEvents world0
             (snd (call Scenario.plain3 Scenario.alwaysFails world0))
           = pre ++ [onFailure "f" i t e]
  | Pending => True
  end.
Proof.
  assert (Hn : 0 <= wretries Scenario.plain3) by (unfold wretries; simpl; lia).
  exact (surfaced_error_is_last_reported Scenario.plain3 Scenario.alwaysFails
           world0 Hn).
Defined.

(** X19 for the first call, through [wrap], of the function that always
    throws behind the breaker [cb1]: a counter of another name stays at
    0. *)
Lemma wrapped_call_counts_attempts_witness :
  WrapperInit.count "g"
    (fst (snd (callWrapped Scenario.guarded Scenario.alwaysFails
                 (WrapperInit.new, withResilience Scenario.guarded world0))))
  = WrapperInit.count "g" WrapperInit.new.
Proof.
  destruct (wrapped_call_counts_attempts Scenario.guarded Scenario.alwaysFails
              WrapperInit.new (withResilience Scenario.guarded world0))
    as (_ & _ & k & j & _ & _ & _ & _ & _ & Ho).
  apply Ho. discriminate.
Defined.

(** ** Circuit breaker and orchestrator together *)

(** A failure reported after the breaker was asked leaves it at rest. *)
Lemma failure_after_probe c n b t t' :
  atRest c b ->
  atRest c (fst (CircuitBreaker.onFailure c n
                   (snd (fst (CircuitBreaker.canAttempt c n b t))) t')).
Proof.
  unfold atRest, CircuitBreaker.canAttempt, CircuitBreaker.onFailure.
  destruct b as [st f o]. simpl.
  intros [[-> H] | [-> H]]; simpl;
    try destruct (resetTimeoutMs c <=? t - o); simpl;
    destruct (failureThreshold c <=? f + 1) eqn:E; simpl;
    (apply Z.leb_le in E || apply Z.leb_gt in E);
    try lia;
    try (left; split; [reflexivity | lia]);
    try (right; split; [reflexivity | lia]).
Qed.

Section Trip.
Variable config : ResilienceConfig.
Variable env : Env.
Variable c : CircuitBreakerConfig.
Hypothesis has_breaker : circuitBreaker config = Some c.

(** A call that rejects leaves the breaker at rest. *)
Lemma attempts_atRest r :
  forall a l w b e,
    breaker w = Some b -> atRest c b ->
    fst (attempts config env r a l w) = Rejected e ->
    exists b',
      breaker (snd (attempts config env r a l w)) = Some b' /\ atRest c b'.
Proof.
  induction r as [|r IH]; intros a l w b e Hb HQ.
  { intros _. exists b. auto. }
  iteration config env a w no w0 Hr o w1 Hw Hsr; intros He;
    try discriminate;
    pose proof (refused_breaker config env c has_breaker a w b _ w0 Hb Hr) as Hb0;
    try (destruct (attemptWork_calls config env w0 _ w1 Hw)
           as (_ & _ & Hb1 & _); rewrite Hb0 in Hb1).
  - apply refused_true_inv in Hr. subst w0. exists b. auto.
  - eexists. cbn [snd fire breaker]. split;
      [apply (breakerFailure_breaker config env c has_breaker w1 _ Hb1)|].
    now apply failure_after_probe.
  - match goal with |- context [attempts config env r (a + 1) ?e' ?w2] =>
      apply (IH (a + 1) e' w2
               (fst (CircuitBreaker.onFailure c (wname config env)
                       (snd (fst (CircuitBreaker.canAttempt c
                                    (wname config env) b (now w))))
                       (now w1))) e)
    end; [| now apply failure_after_probe | exact He].
    destruct (isPositive _); waited; cbn [advance fire breaker];
      apply (breakerFailure_breaker config env c has_breaker w1 _ Hb1).
Qed.
End Trip.

(** C3. With [failureThreshold = 3] the breaker of a wrapped function
    starts CLOSED with no failure counted. A call whose attempt fails and
    is not retried counts one failure more, and the breaker is OPEN from
    the time of the third, CLOSED before. Whatever the retries, a call that
    rejects leaves the count raised by the number of invocations it made,
    and the breaker OPEN once three are counted, CLOSED before. A call made
    while the breaker is OPEN and less than [resetTimeoutMs] after it
    opened rejects with [CircuitOpenError] and the callable is not invoked.
    A call made once [resetTimeoutMs] has passed is let through with the
    breaker HALF_OPEN, which it still is if the attempt never settles; if
    the attempt succeeds the breaker is CLOSED with a failure count of
    0. *)
Theorem breaker_threshold_three :
  forall (config : ResilienceConfig) (env : Env) (reset : Z),
    let c := {| failureThreshold := 3; resetTimeoutMs := reset |} in
    let n := wname config env in
    circuitBreaker config = Some c ->
    0 <= wretries config ->
    (forall w, breaker (withResilience config w) = Some CircuitBreaker.new)
    /\ (forall w b e,
          breaker w = Some b -> CircuitBreaker.state b = CLOSED ->
          outcomeAt config env (calls w) (controllers w) = Rejected e ->
          wretries config = 0 \/ wretryOn config e = false ->
          exists w',
            call config env w = (Rejected e, w')
            /\ calls w' = S (calls w)
            /\ breaker w'
               = Some (if CircuitBreaker.failures b + 1 <? 3
                       then {| CircuitBreaker.state := CLOSED;
                               CircuitBreaker.failures :=
                                 CircuitBreaker.failures b + 1;
                               CircuitBreaker.openedAt :=
                                 CircuitBreaker.openedAt b |}
                       else {| CircuitBreaker.state := OPEN;
                               CircuitBreaker.failures :=
                                 CircuitBreaker.failures b + 1;
                               CircuitBreaker.openedAt := now w' |}))
    /\ (forall w b e,
          breaker w = Some b -> CircuitBreaker.state b = CLOSED ->
          CircuitBreaker.failures b < 3 ->
          fst (call config env w) = Rejected e ->
          exists b' k,
            breaker (snd (call config env w)) = Some b'
            /\ calls (snd (call config env w)) = (calls w + k)%nat
            /\ CircuitBreaker.failures b'
               = CircuitBreaker.failures b + Z.of_nat k
            /\ (CircuitBreaker.failures b' < 3 -> CircuitBreaker.state b' = CLOSED)
            /\ (3 <= CircuitBreaker.failures b' -> CircuitBreaker.state b' = OPEN))
    /\ (forall w b,
          breaker w = Some b -> CircuitBreaker.state b = OPEN ->
          now w - CircuitBreaker.openedAt b < reset ->
          call config env w
          = (Rejected (CircuitOpenError n), fire [onAttempt n 1] w))
    /\ (forall w b,
          breaker w = Some b -> CircuitBreaker.state b = OPEN ->
          reset <= now w - CircuitBreaker.openedAt b ->
          let halfOpen := {| CircuitBreaker.state := HALF_OPEN;
                             CircuitBreaker.failures := CircuitBreaker.failures b;
                             CircuitBreaker.openedAt := CircuitBreaker.openedAt b |} in
          let w0 := fire [onCircuitHalfOpen n]
                      (set_breaker (Some halfOpen) (fire [onAttempt n 1] w)) in
          refused config env (fire [onAttempt n 1] w) = (false, w0)
          /\ (outcomeAt config env (calls w) (controllers w) = Pending ->
              call config env w = (Pending, snd (attemptWork config env w0))
              /\ calls (snd (call config env w)) = S (calls w)
              /\ breaker (snd (call config env w)) = Some halfOpen)
          /\ (forall v,
                outcomeAt config env (calls w) (controllers w) = Resolved v ->
                exists timeMs w',
                  call config env w = (Resolved v, w')
                  /\ calls w' = S (calls w)
                  /\ breaker w'
                     = Some {| CircuitBreaker.state := CLOSED;
                               CircuitBreaker.failures := 0;
                               CircuitBreaker.openedAt := CircuitBreaker.openedAt b |}
                  /\ trace w'
                     = trace w ++ [onAttempt n 1; onCircuitHalfOpen n;
                                   onCircuitClosed n; onSuccess n 1 timeMs])).
Proof.
  intros config env reset c n Hc Hn.
  split; [|split; [|split; [|split]]].
  - intros w. unfold withResilience. now rewrite Hc.
  - intros w b e Hb Hs Ho Hstop. unfold call.
    rewrite iterations_succ by assumption.
    assert (Hr : refused config env (fire [onAttempt n 1] w)
                 = (false, fire [onAttempt n 1] w)).
    { unfold refused. rewrite breakerOf_fire. unfold breakerOf.
      rewrite Hc, Hb. unfold CircuitBreaker.canAttempt. rewrite Hs.
      cbn [negb]. rewrite fire_nil. f_equal. now apply set_breaker_same. }
    set (w0 := fire [onAttempt n 1] w) in *.
    pose proof (attemptWork_spec config env w0) as (Ho1 & Hc1 & _ & Hb1 & _).
    destruct (attemptWork config env w0) as [o w1] eqn:Hw.
    cbn [fst snd] in Ho1, Hc1, Hb1.
    change (calls w0) with (calls w) in Ho1, Hc1.
    change (controllers w0) with (controllers w) in Ho1.
    change (breaker w0) with (breaker w) in Hb1.
    rewrite Ho in Ho1. subst o. rewrite Hb in Hb1.
    eexists. split.
    + apply (attempts_rejected_final config env _ 1 _ w w0 w1 e Hr Hw).
      destruct Hstop as [H0 | Hp].
      * rewrite H0. reflexivity.
      * rewrite Hp. apply andb_false_r.
    + destruct (breakerFailure_sameRun config env w1) as (Hnow & _ & _ & Hcf & _).
      cbn [fire calls breaker now]. split; [lia|].
      rewrite (breakerFailure_breaker config env c Hc w1 b Hb1).
      unfold CircuitBreaker.onFailure.
      cbn [failureThreshold c fst]. rewrite Hnow, Hs.
      destruct (3 <=? CircuitBreaker.failures b + 1) eqn:E;
        [apply Z.leb_le in E | apply Z.leb_gt in E].
      * replace (CircuitBreaker.failures b + 1 <? 3) with false
          by (symmetry; apply Z.ltb_ge; lia). reflexivity.
      * replace (CircuitBreaker.failures b + 1 <? 3) with true
          by (symmetry; apply Z.ltb_lt; lia). reflexivity.
  - intros w b e Hb Hs Hf He. unfold call in *.
    destruct (attempts_account config env c Hc
                (Z.to_nat (wretries config + 1)) 1 VUndefined w b Hb)
      as (b' & k & Hb' & Hk & Hout).
    rewrite He in Hout.
    destruct (attempts_atRest config env c Hc
                (Z.to_nat (wretries config + 1)) 1 VUndefined w b e Hb)
      as (b'' & Hb'' & Hrest); [left; split; assumption | exact He |].
    rewrite Hb' in Hb''. inversion Hb''. subst b''.
    exists b', k. split; [exact Hb'|]. split; [exact Hk|].
    split; [exact Hout|].
    unfold atRest in Hrest. cbn [failureThreshold c] in Hrest.
    split; intros H; destruct Hrest as [[Hst Hlt] | [Hst Hge]];
      try exact Hst; lia.
  - intros w b Hb Hs Hlt. unfold call.
    rewrite iterations_succ by assumption.
    apply attempts_refused. apply refused_true with (c := c) (b := b).
    + rewrite breakerOf_fire. unfold breakerOf. now rewrite Hc, Hb.
    + unfold CircuitBreaker.canAttempt. rewrite Hs. simpl.
      replace (reset <=? now w - CircuitBreaker.openedAt b) with false
        by (symmetry; apply Z.leb_gt; lia).
      reflexivity.
  - intros w b Hb Hs Hge halfOpen w0.
    assert (Hr : refused config env (fire [onAttempt n 1] w) = (false, w0)).
    { unfold refused. rewrite breakerOf_fire. unfold breakerOf.
      rewrite Hc, Hb. unfold CircuitBreaker.canAttempt. rewrite Hs.
      cbn [CircuitState_eqb andb resetTimeoutMs c now fire].
      replace (reset <=? now w - CircuitBreaker.openedAt b) with true
        by (symmetry; apply Z.leb_le; lia).
      reflexivity. }
    split; [exact Hr|].
    pose proof (attemptWork_spec config env w0) as (Ho1 & Hc1 & _ & Hb1 & Ht1 & _).
    destruct (attemptWork config env w0) as [o w1] eqn:Hw.
    cbn [fst snd] in Ho1, Hc1, Hb1, Ht1 |- *.
    change (calls w0) with (calls w) in Ho1, Hc1.
    change (controllers w0) with (controllers w) in Ho1.
    split.
    + intros Ho. rewrite Ho in Ho1. subst o. unfold call.
      rewrite iterations_succ by assumption.
      cbn [attempts]. fold n. rewrite Hr, Hw. cbn [snd].
      split; [reflexivity|]. split; [exact Hc1 | exact Hb1].
    + intros v Ho. rewrite Ho in Ho1. subst o. unfold call.
      rewrite iterations_succ by assumption.
      exists (now w1 - now w0).
      eexists. split.
      * apply (attempts_resolved config env _ 1 _ w w0 w1 v Hr Hw).
      * unfold breakerSuccess, breakerOf. rewrite Hc, Hb1.
        cbn. rewrite Ht1. cbn. rewrite <- !app_assoc. cbn.
        repeat split; assumption.
Qed.

(** C3 on a callable that throws three times and then returns 42, called
    three times, once more 5 ms later, and again after 1000 ms. *)
Lemma breaker_threshold_three_witness :
  breaker Scenario.threeFailures
  = Some {| CircuitBreaker.state := OPEN; CircuitBreaker.failures := 3;
            CircuitBreaker.openedAt := 15 |}
  /\ call Scenario.protected Scenario.failsThrice (advance 5 Scenario.threeFailures)
     = (Rejected (CircuitOpenError "f"),
        fire [onAttempt "f" 1] (advance 5 Scenario.threeFailures))
  /\ exists timeMs w',
       call Scenario.protected Scenario.failsThrice
         (advance 1000 Scenario.threeFailures)
       = (Resolved (VNum 42), w')
       /\ calls w' = 4%nat
       /\ breaker w'
          = Some {| CircuitBreaker.state := CLOSED; CircuitBreaker.failures := 0;
                    CircuitBreaker.openedAt := 15 |}
       /\ trace w'
          = trace (advance 1000 Scenario.threeFailures)
            ++ [onAttempt "f" 1; onCircuitHalfOpen "f"; onCircuitClosed "f";
                onSuccess "f" 1 timeMs].
Proof.
  assert (Hc : circuitBreaker Scenario.protected
               = Some {| failureThreshold := 3; resetTimeoutMs := 1000 |})
    by reflexivity.
  assert (Hn : 0 <= wretries Scenario.protected) by (unfold wretries; simpl; lia).
  destruct (breaker_threshold_three Scenario.protected Scenario.failsThrice
              1000 Hc Hn) as (_ & Hfail & _ & Hfast & Hprobe).
  split; [|split].
  - set (w2 := Scenario.afterCall
                 (Scenario.afterCall
                    (withResilience Scenario.protected world0))).
    assert (Hb : breaker w2
                 = Some {| CircuitBreaker.state := CLOSED;
                           CircuitBreaker.failures := 2;
                           CircuitBreaker.openedAt := 0 |}) by reflexivity.
    assert (Ho : outcomeAt Scenario.protected Scenario.failsThrice
                   (calls w2) (controllers w2) = Rejected (VError "boom"))
      by reflexivity.
    assert (Hstop : wretries Scenario.protected = 0
                    \/ wretryOn Scenario.protected (VError "boom") = false)
      by (left; reflexivity).
    destruct (Hfail w2 _ (VError "boom") Hb eq_refl Ho Hstop)
      as (w' & Hcall & _ & Hb').
    change Scenario.threeFailures
      with (snd (call Scenario.protected Scenario.failsThrice w2)).
    rewrite Hcall. cbn [snd]. rewrite Hb'. 
    assert (Hnow : now w' = 15).
    { change w' with (snd (Rejected (VError "boom"), w')).
      rewrite <- Hcall. reflexivity. }
    rewrite Hnow. reflexivity.
  - assert (Hb : breaker (advance 5 Scenario.threeFailures)
                 = Some {| CircuitBreaker.state := OPEN;
                           CircuitBreaker.failures := 3;
                           CircuitBreaker.openedAt := 15 |}) by reflexivity.
    assert (Hlt : now (advance 5 Scenario.threeFailures) - 15 < 1000)
      by (vm_compute; reflexivity).
    exact (Hfast _ _ Hb eq_refl Hlt).
  - assert (Hb : breaker (advance 1000 Scenario.threeFailures)
                 = Some {| CircuitBreaker.state := OPEN;
                           CircuitBreaker.failures := 3;
                           CircuitBreaker.openedAt := 15 |}) by reflexivity.
    assert (Hge : 1000 <= now (advance 1000 Scenario.threeFailures) - 15)
      by (vm_compute; discriminate).
    assert (Ho : outcomeAt Scenario.protected Scenario.failsThrice
                   (calls (advance 1000 Scenario.threeFailures))
                   (controllers (advance 1000 Scenario.threeFailures))
                 = Resolved (VNum 42)) by reflexivity.
    destruct (Hprobe _ _ Hb eq_refl Hge) as (_ & _ & Hok).
    exact (Hok (VNum 42) Ho).
Defined.
